(** * Smart Travel Planner: the itinerary core of [script.js]

    A shallow embedding of the planner's state and of the functions that
    build, edit, persist and display an itinerary, followed by the
    properties proved about them. *)

From Stdlib Require Import Ascii QArith Qcanon.
From stdpp Require Import gmap strings list fin_maps pretty sorting.

Set Warnings "-clear-no-such-hyp".

Open Scope Qc_scope.
Open Scope nat_scope.

(** ** Data *)

(** A node returned by the Overpass query.  [el.tags] may be missing, and
    so may the [name] entry of the tags.  Numbers that hold coordinates and
    distances are finite doubles, read here as rationals. *)
Record element := Element {
  el_id : N;
  el_lat : Qc;
  el_lon : Qc;
  el_tags : option (gmap string string)
}.

(** An entry of [places] (the object literal of [handlePlan]).  [day] is a
    JavaScript number or not a day index at all ([undefined] after a lookup
    that misses, a non-finite quotient): [None] stands for the latter. *)
Record place := Place {
  pl_id : string;
  pl_name : string;
  pl_lat : Qc;
  pl_lon : Qc;
  pl_tags : gmap string string;
  pl_day : option nat;
  pl_visited : bool;
  pl_descriptionLoaded : bool;
  pl_description : string
}.

Definition set_day (d : option nat) (p : place) : place :=
  Place (pl_id p) (pl_name p) (pl_lat p) (pl_lon p) (pl_tags p) d
        (pl_visited p) (pl_descriptionLoaded p) (pl_description p).

Definition set_visited (v : bool) (p : place) : place :=
  Place (pl_id p) (pl_name p) (pl_lat p) (pl_lon p) (pl_tags p) (pl_day p)
        v (pl_descriptionLoaded p) (pl_description p).

(** The objects handed to [JSON.stringify] and read back from [JSON.parse]:
    [{ places, dest, days, mode }] for a trip and [{ dest, days, mode }] for
    the last-trip pointer.  A field that is absent, [undefined] or [null]
    is [None]. *)
Record jsobject := JsObject {
  o_places : option (list place);
  o_dest : option string;
  o_days : option nat;
  o_mode : option string
}.

(** What the browser provides and the script only calls: the trigonometry
    behind [haversine] (floating point, so the distance is taken as a
    function into the rationals) and the JSON codec.  [JSON_parse] is [None]
    where [JSON.parse] throws. *)
Class Platform := {
  haversine : Qc → Qc → Qc → Qc → Qc;
  JSON_stringify : jsobject → string;
  JSON_parse : string → option jsobject
}.

(** ** The itinerary builder (handlePlan, lines 152-174) *)

(** [el.tags && el.tags.name]: the tags exist and the name is a non-empty
    string. *)
Definition named (el : element) : bool :=
  match el_tags el with
  | Some t => match t !! "name" with
              | Some n => bool_decide (n ≠ "")
              | None => false
              end
  | None => false
  end.

(** [Array.prototype.sort] with a comparator: the sort is stable, and [a]
    goes before [b] when [cmp a b] is negative; elements that compare equal
    keep their input order. *)
Fixpoint sort_insert {A} (cmp : A → A → Qc) (x : A) (l : list A) : list A :=
  match l with
  | [] => [x]
  | y :: l' =>
      if bool_decide (cmp x y ≤ 0)%Qc then x :: y :: l'
      else y :: sort_insert cmp x l'
  end.

Definition Array_sort {A} (cmp : A → A → Qc) (l : list A) : list A :=
  foldr (sort_insert cmp) [] l.

(** The comparator [(a, b) => key(a) - key(b)]. *)
Definition by_key {A} (key : A → Qc) (a b : A) : Qc := (key a - key b)%Qc.

(** [Math.ceil(a / b)] on non-negative integers, [b >= 1]. *)
Definition Math_ceil_div (a b : nat) : nat :=
  if decide (a mod b = 0) then a / b else S (a / b).

(** [Math.floor(index / bucket)]; the quotient by zero is not finite. *)
Definition dayIndex (index bucket : nat) : option nat :=
  if decide (bucket = 0) then None else Some (index / bucket).

Section Builder.
Context `{Platform}.

(** The element together with the [distance] field that the [forEach] of
    line 154 adds to it. *)
Definition with_distance (lat lon : Qc) (el : element) : element * Qc :=
  (el, haversine lat lon (el_lat el) (el_lon el)).

(** [(a, b) => a.distance - b.distance] *)
Definition by_distance : element * Qc → element * Qc → Qc := by_key snd.

Definition ranked (lat lon : Qc) (elements : list element) : list (element * Qc) :=
  Array_sort by_distance (with_distance lat lon <$> filter named elements).

Definition mkPlace (maxPOIs days index : nat) (el : element * Qc) : place :=
  {| pl_id := pretty (el_id el.1);
     pl_name := default "" (el_tags el.1 ≫= (.!! "name"));
     pl_lat := el_lat el.1;
     pl_lon := el_lon el.1;
     pl_tags := default ∅ (el_tags el.1);
     pl_day := dayIndex index (Math_ceil_div maxPOIs days);
     pl_visited := false;
     pl_descriptionLoaded := false;
     pl_description := "" |}.

Definition buildPlaces (lat lon : Qc) (days : nat) (elements : list element) : list place :=
  let elements := ranked lat lon elements in
  let maxPOIs := Nat.min (length elements) (days * 5) in
  let chosen := take maxPOIs elements in
  imap (mkPlace maxPOIs days) chosen.

End Builder.

(** The POIs of day [d], in display order. *)
Definition bucket (d : nat) (ps : list place) : list place :=
  filter (λ p, pl_day p = Some d) ps.

(** ** Planner state *)

(** A Leaflet marker as the script makes it: a position and the background
    colour of its icon ([dayColors[p.day % 8]], [None] when that lookup
    yields [undefined]). *)
Record marker := Marker {
  mk_lat : Qc;
  mk_lon : Qc;
  mk_color : option string
}.

(** The itinerary DOM that the script builds and reads back: one
    [.day-container] per day, holding its [data-day-index] (kept equal on
    the container and on its [.poi-list]), the header text, and the
    [.poi-item] children of its list. *)
Record poiItem := PoiItem {
  item_id : string;
  item_name : string;
  item_visited : bool
}.

Record dayContainer := DayContainer {
  dc_dayIndex : nat;
  dc_title : string;
  dc_items : list poiItem
}.

(** The state variables of lines 35-42, [localStorage], and the children of
    [itineraryContainer].  The Leaflet map itself is external: [markers] is
    the script's own record of which POI has a marker on it.  The form
    fields (destination, stay length, mode) are inputs of [handlePlan] and
    are only written, never read, elsewhere; they are left out. *)
Record state := State {
  markers : gmap string marker;
  places : list place;
  currentUser : option string;
  currentTripKey : option string;
  currentDest : option string;
  currentDays : option nat;
  currentMode : string;
  localStorage : gmap string string;
  itineraryContainer : list dayContainer
}.

Definition set_markers (m : gmap string marker) (st : state) : state :=
  State m (places st) (currentUser st) (currentTripKey st) (currentDest st)
        (currentDays st) (currentMode st) (localStorage st) (itineraryContainer st).

Definition set_places (ps : list place) (st : state) : state :=
  State (markers st) ps (currentUser st) (currentTripKey st) (currentDest st)
        (currentDays st) (currentMode st) (localStorage st) (itineraryContainer st).

Definition set_localStorage (s : gmap string string) (st : state) : state :=
  State (markers st) (places st) (currentUser st) (currentTripKey st) (currentDest st)
        (currentDays st) (currentMode st) s (itineraryContainer st).

Definition set_itineraryContainer (dom : list dayContainer) (st : state) : state :=
  State (markers st) (places st) (currentUser st) (currentTripKey st) (currentDest st)
        (currentDays st) (currentMode st) (localStorage st) dom.

(** The assignments of a plan or of a load: places, destination, day count
    and mode (and, for a plan, the key). *)
Definition set_trip (ps : list place) (key dest : option string) (days : option nat)
    (mode : string) (st : state) : state :=
  State (markers st) ps (currentUser st) key dest days mode
        (localStorage st) (itineraryContainer st).

(** A string is falsy exactly when it is empty; [null] is falsy. *)
Definition truthy (s : option string) : bool :=
  match s with
  | Some s => bool_decide (s ≠ "")
  | None => false
  end.

(** [`${currentUser}`]: [null] prints as "null". *)
Definition template_user (u : option string) : string := default "null" u.

Definition tripKey (user : option string) (dest : string) (days : nat) : string :=
  template_user user +:+ "_trip_" +:+ dest +:+ "_" +:+ pretty days.

Definition lastTripKey (user : option string) : string :=
  template_user user +:+ "_lastTrip".

Definition dayColors : list string :=
  ["#e74c3c"; "#3498db"; "#27ae60"; "#f39c12"; "#9b59b6"; "#1abc9c"; "#e67e22"; "#8e44ad"].

Definition dayColor (p : place) : option string :=
  d ← pl_day p; dayColors !! (d mod length dayColors).

(** ** Rendering: createItineraryUI, createMarkers, updateMarkerColors *)

Definition mkItem (p : place) : poiItem :=
  {| item_id := pl_id p; item_name := pl_name p; item_visited := pl_visited p |}.

Definition mkDayContainer (ps : list place) (d : nat) : dayContainer :=
  {| dc_dayIndex := d;
     dc_title := "Day " +:+ pretty (d + 1);
     dc_items := mkItem <$> bucket d ps |}.

(** Lines 198-246: the container is emptied, and unless [currentDays] is
    falsy one day container per day is created and every place is appended
    to the list whose index is its day (a place whose day matches no list is
    skipped). *)
Definition createItineraryUI (st : state) : state :=
  match currentDays st with
  | None | Some 0 => set_itineraryContainer [] st
  | Some days => set_itineraryContainer (mkDayContainer (places st) <$> seq 0 days) st
  end.

Definition mkMarker (p : place) : marker :=
  {| mk_lat := pl_lat p; mk_lon := pl_lon p; mk_color := dayColor p |}.

(** Lines 299-321: all markers are dropped and one is made for every place
    that is not visited. *)
Definition createMarkers (st : state) : state :=
  set_markers
    (foldl (λ m p, if pl_visited p then m else <[pl_id p := mkMarker p]> m) ∅ (places st))
    st.

(** One turn of the [forEach] of lines 326-342. *)
Definition updateMarker (m : gmap string marker) (p : place) : gmap string marker :=
  match m !! pl_id p with
  | Some mk =>
      if pl_visited p then delete (pl_id p) m
      else <[pl_id p := Marker (mk_lat mk) (mk_lon mk) (dayColor p)]> m
  | None => m
  end.

Definition updateMarkerColors (st : state) : state :=
  set_markers (foldl updateMarker (markers st) (places st)) st.

Section Store.
Context `{Platform}.

(** ** Persistence: saveTrip, loadTrip *)

Definition tripData (st : state) : jsobject :=
  {| o_places := Some (places st);
     o_dest := currentDest st;
     o_days := currentDays st;
     o_mode := Some (currentMode st) |}.

Definition saveTrip (st : state) : state :=
  match currentTripKey st with
  | Some key =>
      if truthy (Some key)
      then set_localStorage (<[key := JSON_stringify (tripData st)]> (localStorage st)) st
      else st
  | None => st
  end.

(** [localStorage.getItem(currentTripKey)], the string [loadTrip] reads. *)
Definition stored_payload (st : state) : option string :=
  key ← currentTripKey st; localStorage st !! key.

(** [data.mode || 'driving'] *)
Definition mode_or_driving (m : option string) : string :=
  if truthy m then default "driving" m else "driving".

(** Lines 433-451.  The [try] body assigns only after [JSON.parse] has
    returned; when it throws, the [catch] logs a warning and returns. *)
Definition loadTrip (st : state) : state :=
  match currentTripKey st with
  | Some key =>
      if truthy (Some key) then
        let dataStr := localStorage st !! key in
        if truthy dataStr then
          match dataStr ≫= JSON_parse with
          | Some data =>
              createMarkers (createItineraryUI
                (set_trip (default [] (o_places data)) (currentTripKey st)
                          (o_dest data) (o_days data) (mode_or_driving (o_mode data)) st))
          | None => st
          end
        else st
      else st
  | None => st
  end.

(** ** Visited toggle (lines 402-423) *)

(** [itineraryContainer.querySelector('.poi-item[data-id=...]')] followed by
    the class updates: the first item with that id, in document order, gets
    the [visited] class exactly when the place is now visited. *)
Fixpoint mark_item (id : string) (v : bool) (dom : list dayContainer) : list dayContainer :=
  match dom with
  | [] => []
  | dc :: dom' =>
      match list_find (λ it, item_id it = id) (dc_items dc) with
      | Some (i, it) =>
          DayContainer (dc_dayIndex dc) (dc_title dc)
            (<[i := PoiItem (item_id it) (item_name it) v]> (dc_items dc)) :: dom'
      | None => dc :: mark_item id v dom'
      end
  end.

Definition toggleVisited (id : string) (st : state) : state :=
  match list_find (λ pl, pl_id pl = id) (places st) with
  | None => st
  | Some (i, p) =>
      let v := negb (pl_visited p) in
      let st := set_places (<[i := set_visited v p]> (places st)) st in
      let st := set_itineraryContainer (mark_item id v (itineraryContainer st)) st in
      saveTrip (updateMarkerColors st)
  end.

(** ** Reorder engine: the two Sortable [onEnd] handlers *)

(** Lines 283-293: [poiId] is [evt.item.dataset.id] and [newDayIndex] is
    [parseInt(evt.to.dataset.dayIndex)]. *)
Definition onEnd_poi (poiId : string) (newDayIndex : nat) (st : state) : state :=
  match list_find (λ pl, pl_id pl = poiId) (places st) with
  | None => st
  | Some (i, poi) =>
      let st := set_places (<[i := set_day (Some newDayIndex) poi]> (places st)) st in
      saveTrip (updateMarkerColors st)
  end.

(** The [mapping] object of lines 255-265: old index to new index, a later
    container overwriting an earlier one with the same old index. *)
Definition dayMapping (newOrderElems : list dayContainer) : gmap nat nat :=
  foldl (λ m e, <[dc_dayIndex e.2 := e.1]> m) ∅ (imap pair newOrderElems).

Definition relabel (newIndex : nat) (dc : dayContainer) : dayContainer :=
  DayContainer newIndex ("Day " +:+ pretty (newIndex + 1)) (dc_items dc).

(** Lines 252-275, run after Sortable has rearranged the day containers. *)
Definition onEnd_days (st : state) : state :=
  let newOrderElems := itineraryContainer st in
  let mapping := dayMapping newOrderElems in
  let st := set_itineraryContainer (imap relabel newOrderElems) st in
  let st := set_places ((λ p, set_day (pl_day p ≫= (mapping !!.)) p) <$> places st) st in
  saveTrip (updateMarkerColors (createItineraryUI st)).

(** The user's gesture that precedes [onEnd_days]: the day containers end
    up in the order [order], which lists, for each new position, the
    position the container came from. *)
Definition dragDays (order : list nat) (st : state) : state :=
  set_itineraryContainer (omap (λ i, itineraryContainer st !! i) order) st.

Definition reorderDays (order : list nat) (st : state) : state :=
  onEnd_days (dragDays order st).

(** ** Planning (handlePlan, lines 118-195) *)

(** The two responses awaited by [handlePlan], after [.json()]: [None] when
    the fetch or the decoding throws.  A geocoding result is the parsed
    [lat]/[lon] pair; [ov_elements] is [overData.elements]. *)
Record overpass := Overpass { ov_elements : option (list element) }.

Definition handlePlan (dest : string) (days : Z) (mode : string)
    (geoData : option (list (Qc * Qc))) (overData : option overpass)
    (st : state) : state :=
  if bool_decide (dest = "") then st
  else if bool_decide (days = 0%Z) || bool_decide (days < 1)%Z then st
  else
    match geoData with
    | None => st
    | Some [] => st
    | Some ((lat, lon) :: _) =>
        match overData with
        | None => st
        | Some overData =>
            let days := Z.to_nat days in
            let ps := buildPlaces lat lon days (default [] (ov_elements overData)) in
            let key := tripKey (currentUser st) dest days in
            let st := set_trip ps (Some key) (Some dest) (Some days) mode st in
            let meta := JsObject None (Some dest) (Some days) (Some mode) in
            let st := set_localStorage
                        (<[lastTripKey (currentUser st) := JSON_stringify meta]> (localStorage st)) st in
            createMarkers (createItineraryUI (saveTrip st))
        end
    end.

End Store.

(** ** Session: restore, start-up, logout, mode change *)


Definition set_currentUser (user : option string) (st : state) : state :=
  State (markers st) (places st) user (currentTripKey st) (currentDest st)
        (currentDays st) (currentMode st) (localStorage st) (itineraryContainer st).

(** [`${currentDest}`] and [`${currentDays}`] for values read from a parsed
    object: a missing field prints as "undefined".  (The script never
    stores [null] in these fields, so [None] is read as missing.) *)
Definition template_dest (dest : option string) : string := default "undefined" dest.

Definition template_days (days : option nat) : string :=
  match days with
  | Some n => pretty n
  | None => "undefined"
  end.

Section Session.
Context `{Platform}.

(** Lines 91-108 and 484-502, which differ only in the order of the
    assignments and in the form fields they fill: the last-trip pointer of
    the current user is read and parsed, the key is rebuilt from it, and
    the trip is loaded.  A pointer on which [JSON.parse] throws is logged
    and ignored. *)
Definition restoreLastTrip (st : state) : state :=
  let metaStr := localStorage st !! lastTripKey (currentUser st) in
  if truthy metaStr then
    match metaStr ≫= JSON_parse with
    | Some meta =>
        let key := template_user (currentUser st) +:+ "_trip_"
                   +:+ template_dest (o_dest meta) +:+ "_" +:+ template_days (o_days meta) in
        loadTrip (set_trip (places st) (Some key) (o_dest meta) (o_days meta)
                           (mode_or_driving (o_mode meta)) st)
    | None => st
    end
  else st.

(** Lines 35-42: the state when the script starts, over the browser's
    storage.  The itinerary container of the page starts empty. *)
Definition initialState (storage : gmap string string) : state :=
  {| markers := ∅; places := []; currentUser := storage !! "currentUser";
     currentTripKey := None; currentDest := None; currentDays := None;
     currentMode := "driving"; localStorage := storage; itineraryContainer := [] |}.

(** The script run from the top (lines 18-42 and 478-503). *)
Definition startup (storage : gmap string string) : state :=
  let st := initialState storage in
  if truthy (currentUser st) then restoreLastTrip st else st.

(** Lines 112-115: [location.reload()] runs the script again. *)
Definition handleLogout (st : state) : state :=
  startup (delete "currentUser" (localStorage st)).


End Session.

(** ** Login (lines 62-109) *)

(** What the browser provides for [handleLogin]: [btoa] ([None] where it
    throws on a character outside Latin-1), which names are members of
    [Object.prototype] (a parsed object answers for them without owning
    them), and the JSON codec on the users object. *)
Class AuthPlatform := {
  btoa : string → option string;
  inherited : string → bool;
  users_stringify : gmap string string → string;
  users_parse : string → option (gmap string string)
}.

(** The value of [users[username]]: an own entry, a member inherited from
    [Object.prototype] (an object or a function), or [undefined]. *)
Inductive member := Own (v : string) | Inherited | Missing.

Inductive loginOutcome :=
  | LoginError (msg : string)   (** the error text shown; nothing else changes *)
  | LoggedIn (st : state)
  | LoginThrows.                (** an exception leaves the handler; nothing was assigned *)

Section Login.
Context `{Platform, AuthPlatform}.

Definition users_member (users : gmap string string) (username : string) : member :=
  match users !! username with
  | Some v => Own v
  | None => if inherited username then Inherited else Missing
  end.

(** [!users[username]] *)
Definition unregistered (m : member) : bool :=
  match m with
  | Own v => bool_decide (v = "")
  | Inherited => false
  | Missing => true
  end.

(** [users[username] === code], for a string [code]. *)
Definition member_is (code : string) (m : member) : bool :=
  match m with
  | Own v => bool_decide (v = code)
  | Inherited | Missing => false
  end.

(** [JSON.parse(localStorage.getItem('users') || '{}')]; [None] where it
    throws. *)
Definition stored_users (st : state) : option (gmap string string) :=
  let stored := localStorage st !! "users" in
  if truthy stored then stored ≫= users_parse else Some ∅.

(** Lines 83-108, after the credentials were accepted. *)
Definition loginSucceeds (username : string) (storage : gmap string string) (st : state) : state :=
  restoreLastTrip
    (set_currentUser (Some username)
       (set_localStorage (<["currentUser" := username]> storage) st)).

(** [username] is the trimmed input.  [JSON.parse] of the users entry is
    not guarded, and neither is [btoa]. *)
Definition handleLogin (username password : string) (st : state) : loginOutcome :=
  if bool_decide (username = "") || bool_decide (password = "") then
    LoginError "Please enter both username and password."
  else
    match stored_users st with
    | None => LoginThrows
    | Some users =>
        if unregistered (users_member users username) then
          match btoa password with
          | None => LoginThrows
          | Some code =>
              LoggedIn (loginSucceeds username
                (<["users" := users_stringify (<[username := code]> users)]> (localStorage st)) st)
          end
        else
          match btoa password with
          | None => LoginThrows
          | Some code =>
              if member_is code (users_member users username)
              then LoggedIn (loginSucceeds username (localStorage st) st)
              else LoginError "Incorrect password."
          end
    end.

(** The JSON law on the users object, and two facts about [btoa]: it is
    injective where it succeeds, and the code of a non-empty string is not
    empty. *)
Definition users_law : Prop :=
  ∀ m, users_stringify m ≠ "" ∧ users_parse (users_stringify m) = Some m.

Definition btoa_law : Prop :=
  (∀ p1 p2 c, btoa p1 = Some c → btoa p2 = Some c → p1 = p2)
  ∧ (∀ p c, btoa p = Some c → p ≠ "" → c ≠ "").

End Login.

(** ** Descriptions (lines 345-399) *)

(** The response awaited by [fetchWikipediaSummary]: [None] when the fetch
    or the decoding throws. *)
Record wikiResponse := WikiResponse { res_ok : bool; res_extract : option string }.

(** Lines 388-399: the extract, or the empty string when there is none or
    anything failed; the promise never rejects. *)
Definition fetchWikipediaSummary (response : option wikiResponse) : string :=
  match response with
  | Some r =>
      if res_ok r then (if truthy (res_extract r) then default "" (res_extract r) else "")
      else ""
  | None => ""
  end.

(** The [then] callback of lines 375-378, on the place it captured. *)
Definition summaryArrived (summary : string) (p : place) : place :=
  Place (pl_id p) (pl_name p) (pl_lat p) (pl_lon p) (pl_tags p) (pl_day p) (pl_visited p)
        true (if bool_decide (summary = "") then "No description available." else summary).

(** Whether [showPlacePopup] on the place at position [i] (the object the
    marker's click handler captured) starts a fetch: the place must have a
    marker and no loaded description. *)
Definition popupFetches (i : nat) (st : state) : bool :=
  match places st !! i with
  | Some p =>
      match markers st !! pl_id p with
      | Some _ => negb (pl_descriptionLoaded p)
      | None => false
      end
  | None => false
  end.

(** The fetch started for position [i] resolves.  The callback writes to
    the captured object, which is the place at position [i] as long as
    [places] was not replaced by a plan or a load in between. *)
Definition summaryResolved (i : nat) (response : option wikiResponse) (st : state) : state :=
  match places st !! i with
  | Some p =>
      set_places (<[i := summaryArrived (fetchWikipediaSummary response) p]> (places st)) st
  | None => st
  end.

(** ** Sync predicates *)

(** The markers are the ones [createMarkers] would make now. *)
Definition markers_in_sync (st : state) : Prop :=
  markers st = markers (createMarkers st).

(** Whether [createItineraryUI] finds a list for the place: its day is a
    number below the day count. *)
Definition shown (D : nat) (p : place) : bool :=
  match pl_day p with
  | Some d => bool_decide (d < D)
  | None => false
  end.

(** What identifies a POI and never changes after the plan. *)
Definition poi_core (p : place) : string * string * Qc * Qc * gmap string string :=
  (pl_id p, pl_name p, pl_lat p, pl_lon p, pl_tags p).

(** The rendered lists are the ones [createItineraryUI] would build now. *)
Definition lists_in_sync (st : state) : Prop :=
  itineraryContainer st = itineraryContainer (createItineraryUI st).

(** The relation between a place before and after an edit that
    [updateMarkerColors] can follow: same id and position, and not turned
    from visited to not visited. *)
Definition followed (p p' : place) : Prop :=
  pl_id p' = pl_id p ∧ pl_lat p' = pl_lat p ∧ pl_lon p' = pl_lon p
  ∧ (pl_visited p = true → pl_visited p' = true).

Section Saved.
Context `{Platform}.

(** The stored trip is the text of the trip in memory. *)
Definition trip_saved (st : state) : Prop :=
  truthy (currentTripKey st) = true
  ∧ stored_payload st = Some (JSON_stringify (tripData st)).

(** The user is logged in with a planned trip, and the storage holds the
    user's name and the last-trip pointer to that trip (with whatever mode
    was last written to it). *)
Definition pointer_saved (st : state) : Prop :=
  ∃ user dest days pointerMode,
    user ≠ "" ∧ dest ≠ "" ∧ currentUser st = Some user
    ∧ localStorage st !! "currentUser" = Some user
    ∧ currentDest st = Some dest ∧ currentDays st = Some days
    ∧ currentTripKey st = Some (tripKey (Some user) dest days)
    ∧ localStorage st !! lastTripKey (Some user)
      = Some (JSON_stringify (JsObject None (Some dest) (Some days) (Some pointerMode))).

(** The JSON law of the platform on the objects the script stores. *)
Definition JSON_law : Prop :=
  ∀ d, JSON_stringify d ≠ "" ∧ JSON_parse (JSON_stringify d) = Some d.

End Saved.

(** Whether a character occurs in a string. *)
Fixpoint has_char (c : ascii) (s : string) : bool :=
  match s with
  | EmptyString => false
  | String a s' => bool_decide (a = c) || has_char c s'
  end.

(** ** A concrete platform and sample data

    To run the model on concrete inputs the platform has to be filled in.
    The distance is the squared planar distance; the codec writes the
    binary code of an object after an opening brace, and reads back only
    what it wrote. *)

Global Instance place_eq_dec : EqDecision place.
Proof. solve_decision. Defined.

Global Instance place_countable : Countable place.
Proof.
  refine (inj_countable'
    (λ p, (pl_id p, pl_name p, pl_lat p, pl_lon p, pl_tags p, pl_day p,
           pl_visited p, pl_descriptionLoaded p, pl_description p))
    (λ t, let '(a, b, c, d, e, f, g, h, i) := t in Place a b c d e f g h i) _).
  by intros [].
Defined.

Global Instance jsobject_eq_dec : EqDecision jsobject.
Proof. solve_decision. Defined.

Global Instance jsobject_countable : Countable jsobject.
Proof.
  refine (inj_countable'
    (λ o, (o_places o, o_dest o, o_days o, o_mode o))
    (λ t, let '(a, b, c, d) := t in JsObject a b c d) _).
  by intros [].
Defined.

Fixpoint bits_of_pos (p : positive) : string :=
  match p with
  | xH => ""
  | xO p => String "0"%char (bits_of_pos p)
  | xI p => String "1"%char (bits_of_pos p)
  end.

Fixpoint pos_of_bits (s : string) : option positive :=
  match s with
  | EmptyString => Some xH
  | String c s =>
      if decide (c = "0"%char) then xO <$> pos_of_bits s
      else if decide (c = "1"%char) then xI <$> pos_of_bits s
      else None
  end.

Definition bits_stringify (o : jsobject) : string :=
  String "{"%char (bits_of_pos (encode o)).

Definition bits_parse (s : string) : option jsobject :=
  match s with
  | String c s => if decide (c = "{"%char) then pos_of_bits s ≫= decode else None
  | EmptyString => None
  end.

Definition planar_distance (lat1 lon1 lat2 lon2 : Qc) : Qc :=
  ((lat2 - lat1) * (lat2 - lat1) + (lon2 - lon1) * (lon2 - lon1))%Qc.

Definition sample_platform : Platform :=
  {| haversine := planar_distance;
     JSON_stringify := bits_stringify;
     JSON_parse := bits_parse |}.

Definition sample_tags (n : string) : option (gmap string string) :=
  Some {[ "name" := n; "tourism" := "museum" ]}.

(** Seven named candidates at distances 1..7 from the origin, given out of
    order, with two nodes that the name filter discards. *)
Definition sample_elements : list element :=
  [ Element 103 (Q2Qc 3) 0 (sample_tags "Forum");
    Element 101 (Q2Qc 1) 0 (sample_tags "Pantheon");
    Element 900 (Q2Qc 1) 0 None;
    Element 107 (Q2Qc 7) 0 (sample_tags "Appia");
    Element 102 (Q2Qc 2) 0 (sample_tags "Trevi");
    Element 901 (Q2Qc 2) 0 (Some {[ "tourism" := "artwork" ]});
    Element 105 (Q2Qc 5) 0 (sample_tags "Borghese");
    Element 104 (Q2Qc 4) 0 (sample_tags "Colosseum");
    Element 106 (Q2Qc 6) 0 (sample_tags "Vatican") ].

Definition empty_state : state :=
  {| markers := ∅; places := []; currentUser := Some "ann";
     currentTripKey := None; currentDest := None; currentDays := None;
     currentMode := "driving"; localStorage := ∅; itineraryContainer := [] |}.

(** The state after planning two days in Rome over [sample_elements]. *)
Definition rome_state : state :=
  @handlePlan sample_platform "Rome" 2 "walking" (Some [(0%Qc, 0%Qc)])
    (Some (Overpass (Some sample_elements))) empty_state.

(** The same plan over three days. *)
Definition rome3_state : state :=
  @handlePlan sample_platform "Rome" 3 "walking" (Some [(0%Qc, 0%Qc)])
    (Some (Overpass (Some sample_elements))) empty_state.

(** Candidates none of which has a name. *)
Definition unnamed_elements : list element :=
  [ Element 900 (Q2Qc 1) 0 None;
    Element 901 (Q2Qc 2) 0 (Some {[ "tourism" := "artwork" ]}) ].






(** The browser side of login, filled in the same way: a stand-in for
    [btoa] that prefixes its input, some members of [Object.prototype], and
    the binary codec on the users object. *)
Definition prefix_btoa (s : string) : option string := Some ("b64:" +:+ s).

Definition prototype_names : list string :=
  ["constructor"; "toString"; "valueOf"; "hasOwnProperty"; "isPrototypeOf";
   "propertyIsEnumerable"; "toLocaleString"; "__proto__"].

Definition bits_users_stringify (m : gmap string string) : string :=
  String "{"%char (bits_of_pos (encode m)).

Definition bits_users_parse (s : string) : option (gmap string string) :=
  match s with
  | String c s => if decide (c = "{"%char) then pos_of_bits s ≫= decode else None
  | EmptyString => None
  end.

Definition sample_auth : AuthPlatform :=
  {| btoa := prefix_btoa;
     inherited := λ u, bool_decide (u ∈ prototype_names);
     users_stringify := bits_users_stringify;
     users_parse := bits_users_parse |}.

(** The first place of the Rome plan. *)
Definition pantheon : place :=
  {| pl_id := "101"; pl_name := "Pantheon"; pl_lat := Q2Qc 1; pl_lon := 0;
     pl_tags := {[ "name" := "Pantheon"; "tourism" := "museum" ]};
     pl_day := Some 0; pl_visited := false; pl_descriptionLoaded := false;
     pl_description := "" |}.

(** A first visit: "ann" registers by logging in on an empty storage and
    plans two days in Rome. *)
Definition ann_logged_in : state :=
  match @handleLogin sample_platform sample_auth "ann" "secret" (@initialState ∅) with
  | LoggedIn st => st
  | _ => initialState ∅
  end.

Definition ann_session : state :=
  @handlePlan sample_platform "Rome" 2 "walking" (Some [(0%Qc, 0%Qc)])
    (Some (Overpass (Some sample_elements))) ann_logged_in.

(** * Properties *)

(** ** Lists: sortedness by positions, and splitting a list into buckets *)

Section ListFacts.
Context {A : Type}.
Implicit Types l : list A.

Lemma StronglySorted_of_lookup (R : relation A) l :
  (∀ i j x y, i < j → l !! i = Some x → l !! j = Some y → R x y) →
  StronglySorted R l.
Proof.
  induction l as [|a l IH]; intros Hl; constructor.
  - apply IH. intros i j x y Hij Hi Hj. by apply (Hl (S i) (S j)); [lia|..].
  - apply Forall_lookup. intros j y Hj. by apply (Hl 0 (S j)); [lia|..].
Qed.

Lemma StronglySorted_lookup (R : relation A) l i j x y :
  StronglySorted R l → i < j → l !! i = Some x → l !! j = Some y → R x y.
Proof.
  intros Hl. revert i j. induction Hl as [|a l _ IH Ha]; intros i j Hij Hi Hj.
  - by rewrite lookup_nil in Hi.
  - destruct j as [|j]; [lia|]. destruct i as [|i]; simplify_eq/=.
    + rewrite Forall_lookup in Ha. by eapply Ha.
    + eapply IH; [|done..]. lia.
Qed.

(** A list sorted by a key, all keys at least [lo], starts with the
    elements whose key is [lo]. *)
Lemma sorted_key_split (k : A → nat) lo l :
  StronglySorted (λ x y, k x ≤ k y) l →
  Forall (λ x, lo ≤ k x) l →
  ∃ l1 l2, l = l1 ++ l2 ∧ Forall (λ x, k x = lo) l1 ∧ Forall (λ x, lo < k x) l2.
Proof.
  induction 1 as [|a l Hl IH Ha]; intros Hlo.
  - by exists [], [].
  - apply Forall_cons in Hlo as [Hlo1 Hlo2].
    destruct (decide (k a = lo)) as [Heq|Hne].
    + destruct (IH Hlo2) as (l1 & l2 & -> & H1 & H2).
      exists (a :: l1), l2. split_and!; [done| by constructor | done].
    + exists [], (a :: l). split_and!; [done | constructor |].
      constructor; [lia|]. eapply Forall_impl; [exact Ha|]. simpl. lia.
Qed.

Lemma filter_all (P : A → Prop) `{!∀ x, Decision (P x)} l :
  Forall P l → filter P l = l.
Proof.
  induction 1 as [|x l Hx _ IH]; [done|].
  by rewrite filter_cons_True, IH.
Qed.

Lemma filter_none (P : A → Prop) `{!∀ x, Decision (P x)} l :
  Forall (λ x, ¬ P x) l → filter P l = [].
Proof.
  induction 1 as [|x l Hx _ IH]; [done|].
  by rewrite filter_cons_False.
Qed.

Lemma filter_agree (P Q : A → Prop) `{!∀ x, Decision (P x), !∀ x, Decision (Q x)} l :
  Forall (λ x, P x ↔ Q x) l → filter P l = filter Q l.
Proof.
  induction 1 as [|x l Hx _ IH]; [done|].
  destruct (decide (P x)).
  - rewrite !filter_cons_True by tauto. by f_equal.
  - rewrite !filter_cons_False by tauto. done.
Qed.

(** The buckets of consecutive keys, concatenated in key order, give back a
    list that is sorted by key. *)
Lemma concat_key_buckets (k : A → nat) n : ∀ lo l,
  StronglySorted (λ x y, k x ≤ k y) l →
  Forall (λ x, lo ≤ k x < lo + n) l →
  concat ((λ d, filter (λ x, k x = d) l) <$> seq lo n) = l.
Proof.
  induction n as [|n IH]; intros lo l Hs Hr.
  - destruct l as [|a l]; [done|]. apply Forall_cons in Hr as [? _]. lia.
  - destruct (sorted_key_split k lo l Hs) as (l1 & l2 & -> & H1 & H2).
    { eapply Forall_impl; [exact Hr|]. simpl. lia. }
    cbn [seq fmap list_fmap concat].
    rewrite filter_app, (filter_all _ l1 H1), (filter_none _ l2).
    2:{ eapply Forall_impl; [exact H2|]. simpl. lia. }
    rewrite app_nil_r. f_equal.
    etrans; [|apply (IH (S lo) l2)].
    + f_equal. apply list_fmap_ext. intros i d Hd.
      apply lookup_seq in Hd as [-> _].
      rewrite filter_app, (filter_none _ l1); [done|].
      eapply Forall_impl; [exact H1|]. simpl. lia.
    + by apply StronglySorted_app_1_r in Hs.
    + apply Forall_app in Hr as [_ Hr]. apply Forall_forall. intros x Hx.
      rewrite Forall_forall in H2, Hr. specialize (H2 x Hx). specialize (Hr x Hx). lia.
Qed.

End ListFacts.

(** ** The stable sort *)

Section Sort.
Context {A : Type} (key : A → Qc).
Implicit Types l : list A.

Lemma by_key_le a b : (by_key key a b ≤ 0)%Qc ↔ (key a ≤ key b)%Qc.
Proof.
  unfold by_key.
  rewrite (Qcle_minus_iff (key a - key b) 0), (Qcle_minus_iff (key a) (key b)).
  by assert (0 + - (key a - key b) = key b + - key a)%Qc as -> by ring.
Qed.

Lemma sort_insert_perm x l : sort_insert (by_key key) x l ≡ₚ x :: l.
Proof.
  induction l as [|y l IH]; simpl; [done|].
  case_bool_decide; [done|]. by rewrite IH, Permutation_swap.
Qed.

Lemma Array_sort_perm l : Array_sort (by_key key) l ≡ₚ l.
Proof.
  induction l as [|x l IH]; simpl; [done|].
  by rewrite sort_insert_perm, IH.
Qed.

Lemma Array_sort_length l : length (Array_sort (by_key key) l) = length l.
Proof. by rewrite Array_sort_perm. Qed.

Lemma sort_insert_sorted x l :
  StronglySorted (λ a b, key a ≤ key b)%Qc l →
  StronglySorted (λ a b, key a ≤ key b)%Qc (sort_insert (by_key key) x l).
Proof.
  induction 1 as [|y l Hl IH Hy]; simpl.
  - repeat constructor.
  - case_bool_decide as Hxy; rewrite by_key_le in Hxy.
    + constructor; [by constructor|]. constructor; [done|].
      eapply Forall_impl; [exact Hy|]. simpl. intros z Hz. by etrans.
    + constructor; [done|]. rewrite sort_insert_perm. constructor; [|done].
      destruct (Qclt_le_dec (key y) (key x)) as [Hlt|Hle]; [|done].
      by apply Qclt_le_weak.
Qed.

Lemma Array_sort_sorted l :
  StronglySorted (λ a b, key a ≤ key b)%Qc (Array_sort (by_key key) l).
Proof.
  induction l as [|x l IH]; simpl; [constructor|]. by apply sort_insert_sorted.
Qed.

(** Stability: the elements of any one key keep their input order. *)
Lemma sort_insert_stable v x l :
  filter (λ a, key a = v) (sort_insert (by_key key) x l) = filter (λ a, key a = v) (x :: l).
Proof.
  induction l as [|y l IH]; simpl; [done|].
  case_bool_decide as Hxy; [done|]. rewrite by_key_le in Hxy.
  rewrite (filter_cons _ y), IH, !(filter_cons _ x), (filter_cons _ y).
  destruct (decide (key x = v)) as [Hx|Hx]; [|done].
  destruct (decide (key y = v)) as [Hy|Hy]; [|done].
  destruct Hxy. rewrite Hx, Hy. apply Qcle_refl.
Qed.

Lemma Array_sort_stable v l :
  filter (λ a, key a = v) (Array_sort (by_key key) l) = filter (λ a, key a = v) l.
Proof.
  induction l as [|x l IH]; simpl; [done|].
  by rewrite sort_insert_stable, !filter_cons, IH.
Qed.

End Sort.

(** ** The itinerary builder *)

(** [Math_ceil_div a b] is the ceiling of [a / b]. *)
Lemma Math_ceil_div_spec a b :
  1 ≤ b →
  a ≤ Math_ceil_div a b * b ∧ (0 < a → (Math_ceil_div a b - 1) * b < a).
Proof.
  intros Hb. unfold Math_ceil_div.
  pose proof (Nat.div_mod_eq a b) as Hdm.
  pose proof (Nat.mod_upper_bound a b ltac:(lia)) as Hm.
  case_decide as Hz.
  - rewrite Hz in Hdm. split; [lia|]. intros Ha.
    destruct (a / b) as [|q]; [lia|]. simpl. lia.
  - split; simpl; lia.
Qed.

Lemma Math_ceil_div_pos a b : 1 ≤ b → 0 < a → 0 < Math_ceil_div a b.
Proof.
  intros Hb Ha. destruct (Math_ceil_div_spec a b Hb) as [Hup _].
  destruct (Math_ceil_div a b); simpl in *; lia.
Qed.

(** A position below [a] falls into a bucket below [b]. *)
Lemma bucket_index_lt i a b :
  1 ≤ b → i < a → i / Math_ceil_div a b < b.
Proof.
  intros Hb Hi. destruct (Math_ceil_div_spec a b Hb) as [Hup _].
  apply Nat.Div0.div_lt_upper_bound. lia.
Qed.

Section BuilderFacts.
Context `{Platform}.
Implicit Types (lat lon : Qc) (elements : list element).

Lemma ranked_length lat lon elements :
  length (ranked lat lon elements) = length (filter named elements).
Proof. unfold ranked, by_distance. by rewrite Array_sort_length, length_fmap. Qed.

Lemma buildPlaces_length lat lon D elements :
  length (buildPlaces lat lon D elements)
  = length (filter named elements) `min` (D * 5).
Proof.
  unfold buildPlaces. rewrite length_imap, length_take, ranked_length. lia.
Qed.

Lemma buildPlaces_lookup lat lon D elements i p :
  buildPlaces lat lon D elements !! i = Some p ↔
  ∃ c, ranked lat lon elements !! i = Some c
       ∧ i < length (filter named elements) `min` (D * 5)
       ∧ p = mkPlace (length (filter named elements) `min` (D * 5)) D i c.
Proof.
  unfold buildPlaces. rewrite list_lookup_imap_Some, ranked_length.
  split.
  - intros (c & Hc & ->). apply lookup_take_Some in Hc as [Hc Hi]. eauto.
  - intros (c & Hc & Hi & ->). exists c. by rewrite lookup_take_Some.
Qed.

Lemma buildPlaces_day lat lon D elements i p :
  1 ≤ D →
  buildPlaces lat lon D elements !! i = Some p →
  pl_day p = Some (i / Math_ceil_div (length (filter named elements) `min` (D * 5)) D).
Proof.
  intros HD (c & _ & Hi & ->)%buildPlaces_lookup. simpl. unfold dayIndex.
  case_decide as Hz; [|done].
  pose proof (Math_ceil_div_pos (length (filter named elements) `min` (D * 5)) D HD).
  lia.
Qed.

(** The day attached to a place, as a plain number. *)
Lemma buildPlaces_sorted_days lat lon D elements :
  1 ≤ D →
  StronglySorted (λ p q, default 0 (pl_day p) ≤ default 0 (pl_day q))
    (buildPlaces lat lon D elements).
Proof.
  intros HD. apply StronglySorted_of_lookup. intros i j p q Hij Hp Hq.
  rewrite (buildPlaces_day _ _ _ _ _ _ HD Hp), (buildPlaces_day _ _ _ _ _ _ HD Hq).
  simpl. apply Nat.Div0.div_le_mono. lia.
Qed.

Lemma buildPlaces_buckets lat lon D elements :
  1 ≤ D →
  concat ((λ d, bucket d (buildPlaces lat lon D elements)) <$> seq 0 D)
  = buildPlaces lat lon D elements.
Proof.
  intros HD. set (ps := buildPlaces lat lon D elements).
  assert (∀ p, p ∈ ps → ∃ d, pl_day p = Some d ∧ d < D) as Hday.
  { intros p [i Hi]%list_elem_of_lookup. eexists. split.
    - by apply (buildPlaces_day lat lon D elements).
    - apply bucket_index_lt; [done|].
      apply buildPlaces_lookup in Hi as (_ & _ & ? & _). done. }
  etrans; [|apply (concat_key_buckets (λ p, default 0 (pl_day p)) D 0 ps)].
  - f_equal. apply list_fmap_ext. intros _ d _. unfold bucket.
    apply filter_agree, Forall_forall. intros p [d' [Hd' _]]%Hday.
    rewrite Hd'. simpl. naive_solver.
  - by apply buildPlaces_sorted_days.
  - apply Forall_forall. intros p [d' [Hd' ?]]%Hday. rewrite Hd'. simpl. lia.
Qed.

(** C1. For every day count [D >= 1] the builder keeps
    [min(N, D*5)] of the [N] named candidates; the [i]-th of them, in the
    order of the distance sort, becomes the [i]-th place, with day
    [floor(i / b)] where [b] is the ceiling of [selected / D]; that day is
    below [D]; and the day buckets [0 .. D-1], concatenated, are exactly
    the places (nothing dropped, nothing twice). *)
Theorem buildPlaces_partition lat lon D elements :
  1 ≤ D →
  let N := length (filter named elements) in
  let selected := N `min` (D * 5) in
  let ps := buildPlaces lat lon D elements in
  length ps = selected
  ∧ (∀ i p, ps !! i = Some p →
       ∃ c b, take selected (ranked lat lon elements) !! i = Some c
            ∧ p = mkPlace selected D i c
            ∧ (b - 1) * D < selected ≤ b * D
            ∧ pl_day p = Some (i / b)
            ∧ i / b < D)
  ∧ concat ((λ d, bucket d ps) <$> seq 0 D) = ps.
Proof.
  intros HD N selected ps. split_and!.
  - apply buildPlaces_length.
  - intros i p Hp.
    pose proof (buildPlaces_day _ _ _ _ _ _ HD Hp) as Hday.
    apply buildPlaces_lookup in Hp as (c & Hc & Hi & ->).
    fold N selected in Hi, Hday |- *.
    exists c, (Math_ceil_div selected D).
    destruct (Math_ceil_div_spec selected D HD) as [Hup Hlo].
    split_and!; [by rewrite lookup_take_Some | done | lia | lia | done |].
    by apply bucket_index_lt.
  - by apply buildPlaces_buckets.
Qed.

Lemma ranked_distance lat lon elements c :
  c ∈ ranked lat lon elements →
  named c.1 ∧ c.2 = haversine lat lon (el_lat c.1) (el_lon c.1).
Proof.
  unfold ranked, by_distance. rewrite Array_sort_perm.
  intros (el & -> & Hel)%list_elem_of_fmap. apply list_elem_of_filter in Hel as [Hn _].
  split; [|done]. simpl. by destruct (named el).
Qed.

Lemma buildPlaces_days_mono lat lon D elements i j p1 p2 d1 d2 :
  i ≤ j →
  buildPlaces lat lon D elements !! i = Some p1 →
  buildPlaces lat lon D elements !! j = Some p2 →
  pl_day p1 = Some d1 → pl_day p2 = Some d2 → d1 ≤ d2.
Proof.
  intros Hij (c1 & _ & _ & ->)%buildPlaces_lookup (c2 & _ & _ & ->)%buildPlaces_lookup.
  simpl. unfold dayIndex. case_decide; [done|]. intros [= <-] [= <-].
  by apply Nat.Div0.div_le_mono.
Qed.

Lemma buildPlaces_distance_mono lat lon D elements i j p1 p2 :
  i ≤ j →
  buildPlaces lat lon D elements !! i = Some p1 →
  buildPlaces lat lon D elements !! j = Some p2 →
  (haversine lat lon (pl_lat p1) (pl_lon p1) ≤ haversine lat lon (pl_lat p2) (pl_lon p2))%Qc.
Proof.
  intros Hij (c1 & Hc1 & _ & ->)%buildPlaces_lookup (c2 & Hc2 & _ & ->)%buildPlaces_lookup.
  simpl.
  destruct (ranked_distance lat lon elements c1) as [_ <-]; [by eapply list_elem_of_lookup_2|].
  destruct (ranked_distance lat lon elements c2) as [_ <-]; [by eapply list_elem_of_lookup_2|].
  destruct (decide (i = j)) as [->|Hne].
  - rewrite Hc1 in Hc2. injection Hc2 as ->. apply Qcle_refl.
  - eapply (StronglySorted_lookup (λ a b, a.2 ≤ b.2)%Qc (ranked lat lon elements) i j);
      [apply Array_sort_sorted | lia | done..].
Qed.

(** C6. The named candidates are sorted by distance from the origin before
    the selection: the sorted list is a rearrangement of the candidates in
    ascending distance in which candidates at the same distance keep their
    input order; the place at position [i] is made from the [i]-th sorted
    candidate; so a place that precedes another one is no farther and in
    the same or an earlier day, and a place of an earlier day is no farther
    than a place of a later day. *)
Theorem buildPlaces_by_distance lat lon D elements :
  let candidates := with_distance lat lon <$> filter named elements in
  let sorted := ranked lat lon elements in
  let ps := buildPlaces lat lon D elements in
  let dist (p : place) := haversine lat lon (pl_lat p) (pl_lon p) in
  sorted ≡ₚ candidates
  ∧ StronglySorted (λ a b, a.2 ≤ b.2)%Qc sorted
  ∧ (∀ v, filter (λ a, a.2 = v) sorted = filter (λ a, a.2 = v) candidates)
  ∧ (∀ i p, ps !! i = Some p → ∃ c, sorted !! i = Some c ∧ dist p = c.2)
  ∧ (∀ i j p1 p2, i ≤ j → ps !! i = Some p1 → ps !! j = Some p2 →
       (dist p1 ≤ dist p2)%Qc
       ∧ ∀ d1 d2, pl_day p1 = Some d1 → pl_day p2 = Some d2 → d1 ≤ d2)
  ∧ (∀ i j p1 p2 d1 d2, ps !! i = Some p1 → ps !! j = Some p2 →
       pl_day p1 = Some d1 → pl_day p2 = Some d2 → d1 < d2 →
       (dist p1 ≤ dist p2)%Qc).
Proof.
  intros candidates sorted ps dist. split_and!.
  - apply Array_sort_perm.
  - apply Array_sort_sorted.
  - intros v. apply (Array_sort_stable snd).
  - intros i p (c & Hc & _ & ->)%buildPlaces_lookup. exists c. split; [done|].
    unfold dist. simpl. symmetry. eapply ranked_distance, list_elem_of_lookup_2, Hc.
  - intros i j p1 p2 Hij Hp1 Hp2. split.
    + by eapply buildPlaces_distance_mono.
    + intros d1 d2. by eapply buildPlaces_days_mono.
  - intros i j p1 p2 d1 d2 Hp1 Hp2 Hd1 Hd2 Hlt.
    destruct (decide (i ≤ j)) as [Hij|Hji]; [by eapply buildPlaces_distance_mono|].
    assert (d2 ≤ d1); [|lia].
    eapply (buildPlaces_days_mono lat lon D elements j i); [lia|done..].
Qed.

End BuilderFacts.

(** ** What each function leaves alone *)

Section Frames.
Context `{Platform}.
Implicit Types st : state.

Lemma saveTrip_frame st : saveTrip st = set_localStorage (localStorage (saveTrip st)) st.
Proof. unfold saveTrip. repeat case_match; by destruct st. Qed.

Lemma saveTrip_places st : places (saveTrip st) = places st.
Proof. by rewrite saveTrip_frame. Qed.

Lemma saveTrip_markers st : markers (saveTrip st) = markers st.
Proof. by rewrite saveTrip_frame. Qed.

Lemma saveTrip_itineraryContainer st :
  itineraryContainer (saveTrip st) = itineraryContainer st.
Proof. by rewrite saveTrip_frame. Qed.

Lemma saveTrip_currentDays st : currentDays (saveTrip st) = currentDays st.
Proof. by rewrite saveTrip_frame. Qed.

Lemma saveTrip_currentTripKey st : currentTripKey (saveTrip st) = currentTripKey st.
Proof. by rewrite saveTrip_frame. Qed.

Lemma createItineraryUI_frame st :
  createItineraryUI st = set_itineraryContainer (itineraryContainer (createItineraryUI st)) st.
Proof. unfold createItineraryUI. by repeat case_match. Qed.

Lemma createItineraryUI_places st : places (createItineraryUI st) = places st.
Proof. by rewrite createItineraryUI_frame. Qed.

Lemma createItineraryUI_markers st : markers (createItineraryUI st) = markers st.
Proof. by rewrite createItineraryUI_frame. Qed.

Lemma createItineraryUI_currentDays st : currentDays (createItineraryUI st) = currentDays st.
Proof. by rewrite createItineraryUI_frame. Qed.

Lemma createItineraryUI_dayIndex st D :
  currentDays st = Some D →
  dc_dayIndex <$> itineraryContainer (createItineraryUI st) = seq 0 D.
Proof.
  intros HD. unfold createItineraryUI. rewrite HD. destruct D as [|D]; [done|].
  cbn [itineraryContainer set_itineraryContainer].
  rewrite <- list_fmap_compose. apply list_fmap_id.
Qed.

End Frames.

(** ** Markers *)

Section MarkerFacts.
Implicit Types (m : gmap string marker) (ps : list place).

(** The [forEach] of updateMarkerColors keeps the marker of an id exactly
    when no place with that id is visited; it adds none. *)
Lemma updateMarker_fold_dom ps : ∀ m id,
  id ∈ dom (foldl updateMarker m ps) ↔
  id ∈ dom m ∧ Forall (λ p, pl_id p = id → pl_visited p = false) ps.
Proof.
  induction ps as [|p ps IH]; intros m id; simpl.
  - rewrite Forall_nil. tauto.
  - rewrite IH, Forall_cons. unfold updateMarker.
    destruct (m !! pl_id p) as [mk|] eqn:Hm.
    + destruct (pl_visited p) eqn:Hv.
      * rewrite dom_delete, elem_of_difference, elem_of_singleton. naive_solver.
      * rewrite dom_insert, elem_of_union, elem_of_singleton.
        assert (pl_id p ∈ dom m) by (apply elem_of_dom; eauto). naive_solver.
    + apply not_elem_of_dom in Hm. naive_solver.
Qed.

Lemma createMarkers_fold ps : ∀ m id,
  id ∈ dom (foldl (λ m p, if pl_visited p then m else <[pl_id p := mkMarker p]> m) m ps) ↔
  id ∈ dom m ∨ ∃ p, p ∈ ps ∧ pl_id p = id ∧ pl_visited p = false.
Proof.
  induction ps as [|p ps IH]; intros m id; simpl.
  - split; [auto|]. intros [?|(p & Hp & _)]; [done|]. by apply elem_of_nil in Hp.
  - rewrite IH. destruct (pl_visited p) eqn:Hv.
    + split.
      * intros [?|(q & Hq & ? & ?)]; [by left|]. right. exists q. by rewrite elem_of_cons; auto.
      * intros [?|(q & [->|Hq]%elem_of_cons & ? & ?)]; [by left|congruence|]. right. eauto.
    + rewrite dom_insert, elem_of_union, elem_of_singleton. split.
      * intros [[->|?]|(q & Hq & ? & ?)]; [|by left|].
        -- right. exists p. by rewrite elem_of_cons; auto.
        -- right. exists q. by rewrite elem_of_cons; auto.
      * intros [?|(q & [->|Hq]%elem_of_cons & ? & ?)]; [by auto|by auto|]. right. eauto.
Qed.

End MarkerFacts.

(** ** Edits addressed by POI id *)

Section EditFacts.
Context `{Platform}.
Implicit Types (st : state) (id : string).

(** [places.find(pl => pl.id === id)] picks the first place with the id. *)
Lemma find_place_Some st id :
  id ∈ pl_id <$> places st →
  ∃ i p, list_find (λ pl, pl_id pl = id) (places st) = Some (i, p)
         ∧ places st !! i = Some p ∧ pl_id p = id
         ∧ ∀ j q, j < i → places st !! j = Some q → pl_id q ≠ id.
Proof.
  intros (p & Hid & Hp)%list_elem_of_fmap.
  destruct (list_find_elem_of (λ pl, pl_id pl = id) (places st) p Hp) as [[i q] Hf]; [done|].
  exists i, q. split; [done|]. apply list_find_Some in Hf as (Hq & Hqid & Hmin).
  split_and!; [done..|]. intros j r Hj Hr. by apply (Hmin j r).
Qed.

Lemma find_place_None st id :
  id ∉ pl_id <$> places st →
  list_find (λ pl, pl_id pl = id) (places st) = None.
Proof.
  intros Hid. apply list_find_None, Forall_forall. intros p Hp Heq.
  apply Hid, list_elem_of_fmap. eauto.
Qed.

(** Replacing the place that [find] returned by one with the same id does
    not change which position [find] returns. *)
Lemma find_place_insert (ps : list place) id i p q :
  list_find (λ pl, pl_id pl = id) ps = Some (i, p) →
  pl_id q = id →
  list_find (λ pl, pl_id pl = id) (<[i := q]> ps) = Some (i, q).
Proof.
  intros (Hp & Hpid & Hmin)%list_find_Some Hq. apply list_find_Some.
  assert (i < length ps) by (by eapply lookup_lt_Some).
  split_and!; [by apply list_lookup_insert_eq | done |].
  intros j r Hj Hji. rewrite list_lookup_insert_ne in Hj by lia. by apply (Hmin j r).
Qed.

(** C7. An id that no place carries: the move handler and toggleVisited
    both return at their guard, and the whole planner state (the trip, and
    with it markers, storage and the rendered lists) is what it was. *)
Theorem unknown_id_noop st id newDayIndex :
  id ∉ pl_id <$> places st →
  onEnd_poi id newDayIndex st = st ∧ toggleVisited id st = st.
Proof.
  intros Hid. unfold onEnd_poi, toggleVisited.
  by rewrite (find_place_None st id Hid).
Qed.

(** C5. Moving a POI whose id is in the trip: the first place carrying the
    id gets the target day and keeps every other field; the places at all
    other positions, and the destination, day count and mode, are
    unchanged. *)
Theorem onEnd_poi_frame st id newDayIndex :
  id ∈ pl_id <$> places st →
  let st' := onEnd_poi id newDayIndex st in
  ∃ i p,
    places st !! i = Some p ∧ pl_id p = id
    ∧ (∀ j q, j < i → places st !! j = Some q → pl_id q ≠ id)
    ∧ places st' = <[i := set_day (Some newDayIndex) p]> (places st)
    ∧ places st' !! i = Some (Place (pl_id p) (pl_name p) (pl_lat p) (pl_lon p) (pl_tags p)
                                (Some newDayIndex) (pl_visited p) (pl_descriptionLoaded p)
                                (pl_description p))
    ∧ (∀ j, j ≠ i → places st' !! j = places st !! j)
    ∧ length (places st') = length (places st)
    ∧ currentDest st' = currentDest st
    ∧ currentDays st' = currentDays st
    ∧ currentMode st' = currentMode st.
Proof.
  intros Hid st'. destruct (find_place_Some st id Hid) as (i & p & Hf & Hp & Hpid & Hmin).
  exists i, p. subst st'. unfold onEnd_poi. rewrite Hf.
  rewrite saveTrip_frame. cbn.
  assert (i < length (places st)) by (by eapply lookup_lt_Some).
  split_and!; try done.
  - by apply list_lookup_insert_eq.
  - intros j Hj. by apply list_lookup_insert_ne.
  - by rewrite length_insert.
Qed.

(** Toggling twice gives back the places, whatever the id. *)
Lemma toggleVisited_twice_places st id :
  places (toggleVisited id (toggleVisited id st)) = places st.
Proof.
  unfold toggleVisited at 2.
  destruct (list_find _ (places st)) as [[i p]|] eqn:Hf.
  - unfold toggleVisited. rewrite saveTrip_places. cbn.
    rewrite (find_place_insert (places st) id i p (set_visited (negb (pl_visited p)) p) Hf).
    2:{ apply list_find_Some in Hf. by destruct Hf as (_ & ? & _). }
    rewrite saveTrip_places. cbn. rewrite list_insert_insert_eq.
    apply list_insert_id. apply list_find_Some in Hf as (Hp & _).
    rewrite Hp. f_equal. destruct p as [? ? ? ? ? ? v ? ?]. unfold set_visited. cbn.
    by rewrite negb_involutive.
  - unfold toggleVisited. by rewrite Hf.
Qed.

Lemma toggleVisited_markers st id :
  markers (toggleVisited id st) = markers st
  ∨ ∃ ps, markers (toggleVisited id st) = foldl updateMarker (markers st) ps.
Proof.
  unfold toggleVisited. destruct (list_find _ _) as [[i p]|]; [|by left].
  right. rewrite saveTrip_markers. cbn. eauto.
Qed.

(** toggleVisited gives no marker to an id that has none. *)
Lemma toggleVisited_keeps_absent st id id' :
  markers st !! id' = None → markers (toggleVisited id st) !! id' = None.
Proof.
  intros Hnone. destruct (toggleVisited_markers st id) as [->|[ps ->]]; [done|].
  apply not_elem_of_dom. rewrite updateMarker_fold_dom.
  apply not_elem_of_dom in Hnone. tauto.
Qed.

(** Marking a place visited and unmarking it again leaves its id without
    a marker, whether or not it had one. *)
Lemma toggleVisited_twice_no_marker st id :
  id ∈ pl_id <$> places st →
  (∀ p, p ∈ places st → pl_id p = id → pl_visited p = false) →
  markers (toggleVisited id (toggleVisited id st)) !! id = None.
Proof.
  intros Hid Hfresh. apply toggleVisited_keeps_absent.
  destruct (find_place_Some st id Hid) as (i & p & Hf & Hp & Hpid & _).
  unfold toggleVisited. rewrite Hf, saveTrip_markers. cbn.
  apply not_elem_of_dom. rewrite updateMarker_fold_dom. intros [_ Hall].
  rewrite Forall_lookup in Hall.
  assert (i < length (places st)) as Hi by (by eapply lookup_lt_Some).
  specialize (Hall i _ (list_lookup_insert_eq _ _ _ Hi) Hpid).
  rewrite (Hfresh p) in Hall; [done| by eapply list_elem_of_lookup_2 | done].
Qed.

(** C10. updateMarkerColors never adds a marker: the ids with a marker
    after a call are among those before it, and are exactly the ones none
    of whose places is visited.  Hence toggleVisited gives no marker to an
    id that had none, and only createMarkers, which makes a marker for
    every place that is not visited, brings one back. *)
Theorem updateMarkerColors_shrinks st :
  dom (markers (updateMarkerColors st)) ⊆ dom (markers st)
  ∧ (∀ id, id ∈ dom (markers (updateMarkerColors st)) ↔
           id ∈ dom (markers st)
           ∧ Forall (λ p, pl_id p = id → pl_visited p = false) (places st))
  ∧ (∀ id id', markers st !! id' = None → markers (toggleVisited id st) !! id' = None)
  ∧ (∀ id, id ∈ dom (markers (createMarkers st)) ↔
           ∃ p, p ∈ places st ∧ pl_id p = id ∧ pl_visited p = false).
Proof.
  split_and!.
  - intros id Hid. by apply updateMarker_fold_dom in Hid as [? _].
  - intros id. apply updateMarker_fold_dom.
  - intros id id'. apply toggleVisited_keeps_absent.
  - intros id. unfold createMarkers. cbn. rewrite createMarkers_fold.
    rewrite dom_empty, elem_of_empty. tauto.
Qed.

End EditFacts.

(** ** Persistence *)

Section StoreFacts.
Context `{Platform}.
Implicit Types st : state.

Lemma createMarkers_places st : places (createMarkers st) = places st.
Proof. done. Qed.

Lemma createMarkers_itineraryContainer st :
  itineraryContainer (createMarkers st) = itineraryContainer st.
Proof. done. Qed.

Lemma loadTrip_parsed st key s data :
  currentTripKey st = Some key → key ≠ "" →
  localStorage st !! key = Some s → s ≠ "" →
  JSON_parse s = Some data →
  loadTrip st =
    createMarkers (createItineraryUI
      (set_trip (default [] (o_places data)) (Some key) (o_dest data) (o_days data)
                (mode_or_driving (o_mode data)) st)).
Proof.
  intros Hkey Hne Hs Hsne Hparse. unfold loadTrip. rewrite Hkey, Hs. cbn.
  rewrite !bool_decide_eq_true_2 by done. by rewrite Hparse.
Qed.

(** What "parses" means for loadTrip: a text that parses to an object
    without any of the four fields is accepted, and loads an empty trip. *)
Lemma loadTrip_object_without_fields st key s :
  currentTripKey st = Some key → key ≠ "" →
  localStorage st !! key = Some s → s ≠ "" →
  JSON_parse s = Some (JsObject None None None None) →
  places (loadTrip st) = [] ∧ currentDest (loadTrip st) = None
  ∧ currentDays (loadTrip st) = None ∧ currentMode (loadTrip st) = "driving".
Proof.
  intros Hkey Hne Hs Hsne Hparse.
  rewrite (loadTrip_parsed st key s _ Hkey Hne Hs Hsne Hparse).
  by rewrite createMarkers_places, createItineraryUI_frame.
Qed.



(** C2. Under the platform's JSON law (stringify yields a non-empty text
    that parses back to the same object), a trip saved under a non-empty
    key with a non-empty mode is read back field for field: saveTrip stores
    the text of [{places, dest, days, mode}] under the key, and loadTrip,
    run in any state that has this key and this storage, ends with the
    saved places, destination, day count and mode. *)
Theorem save_load_roundtrip st st0 :
  (∀ d, JSON_stringify d ≠ "" ∧ JSON_parse (JSON_stringify d) = Some d) →
  truthy (currentTripKey st) = true →
  currentMode st ≠ "" →
  currentTripKey st0 = currentTripKey st →
  localStorage st0 = localStorage (saveTrip st) →
  (∃ key, currentTripKey st = Some key
          ∧ localStorage (saveTrip st) !! key
            = Some (JSON_stringify (JsObject (Some (places st)) (currentDest st)
                                             (currentDays st) (Some (currentMode st)))))
  ∧ places (loadTrip st0) = places st
  ∧ currentDest (loadTrip st0) = currentDest st
  ∧ currentDays (loadTrip st0) = currentDays st
  ∧ currentMode (loadTrip st0) = currentMode st.
Proof.
  intros Hjson Hkey Hmode Hk0 Hls0.
  destruct (currentTripKey st) as [key|] eqn:Hk; [|done].
  cbn in Hkey. apply bool_decide_eq_true_1 in Hkey.
  assert (localStorage (saveTrip st) !! key = Some (JSON_stringify (tripData st))) as Hsaved.
  { unfold saveTrip. rewrite Hk. cbn. rewrite bool_decide_eq_true_2 by done.
    cbn. by rewrite lookup_insert_eq. }
  split; [by exists key|].
  destruct (Hjson (tripData st)) as [Hne Hparse].
  rewrite (loadTrip_parsed st0 key (JSON_stringify (tripData st)) (tripData st));
    [| done | done | by rewrite Hls0 | done..].
  rewrite createMarkers_places, createItineraryUI_frame. cbn.
  split_and!; try done.
  unfold mode_or_driving. cbn. by rewrite bool_decide_eq_true_2.
Qed.

(** ** Planning *)

Lemma handlePlan_planned st dest days mode lat lon geo o :
  dest ≠ "" → (1 ≤ days)%Z →
  let st' := handlePlan dest days mode (Some ((lat, lon) :: geo)) (Some o) st in
  places st' = buildPlaces lat lon (Z.to_nat days) (default [] (ov_elements o))
  ∧ currentTripKey st' = Some (tripKey (currentUser st) dest (Z.to_nat days))
  ∧ currentDest st' = Some dest
  ∧ currentDays st' = Some (Z.to_nat days)
  ∧ currentMode st' = mode
  ∧ itineraryContainer st' = mkDayContainer (places st') <$> seq 0 (Z.to_nat days)
  ∧ ∀ id, id ∈ dom (markers st') ↔ ∃ p, p ∈ places st' ∧ pl_id p = id ∧ pl_visited p = false.
Proof.
  intros Hdest Hdays st'. subst st'. unfold handlePlan.
  rewrite (bool_decide_eq_false_2 (dest = "")) by done.
  rewrite (bool_decide_eq_false_2 (days = 0%Z)) by lia.
  rewrite (bool_decide_eq_false_2 (days < 1)%Z) by lia. cbn [orb].
  set (st1 := saveTrip _).
  assert (places st1 = buildPlaces lat lon (Z.to_nat days) (default [] (ov_elements o))
          ∧ currentDays st1 = Some (Z.to_nat days)) as [Hps Hd].
  { subst st1. by rewrite saveTrip_frame. }
  split_and!.
  - by rewrite createMarkers_places, createItineraryUI_places.
  - subst st1. by rewrite createItineraryUI_frame, saveTrip_frame.
  - subst st1. by rewrite createItineraryUI_frame, saveTrip_frame.
  - subst st1. by rewrite createItineraryUI_frame, saveTrip_frame.
  - subst st1. by rewrite createItineraryUI_frame, saveTrip_frame.
  - rewrite createMarkers_places, createItineraryUI_places, createMarkers_itineraryContainer.
    unfold createItineraryUI. rewrite Hd.
    destruct (Z.to_nat days) eqn:Hz; [lia|]. done.
  - intros id. rewrite createMarkers_places, createItineraryUI_places.
    unfold createMarkers. cbn [markers set_markers].
    rewrite createMarkers_fold, dom_empty, elem_of_empty, createItineraryUI_places. tauto.
Qed.

(** C9. A plan for which no candidate passes the name filter completes
    like any other plan and leaves an empty list of places (no markers, and
    [D] empty day lists).  The bucket size [ceil(0 / D)] is zero, and with
    no selected candidate no place is made, so nothing is divided by it. *)
Theorem plan_without_candidates st dest days mode lat lon geo o :
  dest ≠ "" → (1 ≤ days)%Z →
  filter named (default [] (ov_elements o)) = [] →
  let st' := handlePlan dest days mode (Some ((lat, lon) :: geo)) (Some o) st in
  places st' = []
  ∧ buildPlaces lat lon (Z.to_nat days) (default [] (ov_elements o)) = []
  ∧ Math_ceil_div 0 (Z.to_nat days) = 0
  ∧ currentDest st' = Some dest
  ∧ currentDays st' = Some (Z.to_nat days)
  ∧ markers st' = ∅
  ∧ length (itineraryContainer st') = Z.to_nat days
  ∧ Forall (λ dc, dc_items dc = []) (itineraryContainer st').
Proof.
  intros Hdest Hdays Hnone st'.
  destruct (handlePlan_planned st dest days mode lat lon geo o Hdest Hdays)
    as (Hps & _ & Hd & Hn & _ & Hui & Hmk).
  fold st' in Hps, Hd, Hn, Hui, Hmk.
  assert (buildPlaces lat lon (Z.to_nat days) (default [] (ov_elements o)) = []) as Hb.
  { apply length_zero_iff_nil. rewrite buildPlaces_length, Hnone. done. }
  rewrite Hb in Hps. split_and!; try done.
  - unfold Math_ceil_div. rewrite Nat.Div0.mod_0_l, Nat.Div0.div_0_l. by case_decide.
  - apply dom_empty_iff_L. apply set_eq. intros id. rewrite Hmk, Hps.
    split; [|by rewrite elem_of_empty]. intros (p & Hp & _). by apply elem_of_nil in Hp.
  - by rewrite Hui, length_fmap, length_seq.
  - rewrite Hui, Hps. apply Forall_fmap, Forall_forall. by intros d _.
Qed.

End StoreFacts.

(** ** Reordering days *)

Lemma dayMapping_snoc (l : list dayContainer) dc :
  dayMapping (l ++ [dc]) = <[dc_dayIndex dc := length l]> (dayMapping l).
Proof.
  unfold dayMapping. rewrite imap_app, foldl_app. cbn. by rewrite Nat.add_0_r.
Qed.

(** With day indices that are pairwise distinct, [mapping[d]] is the
    position of the container whose index was [d]. *)
Lemma dayMapping_lookup (l : list dayContainer) d n :
  NoDup (dc_dayIndex <$> l) →
  dayMapping l !! d = Some n ↔ (dc_dayIndex <$> l) !! n = Some d.
Proof.
  revert n. induction l as [|dc l IH] using rev_ind; intros n Hnd.
  - unfold dayMapping. cbn. by rewrite lookup_empty, lookup_nil.
  - rewrite fmap_app in Hnd |- *. cbn in Hnd |- *.
    apply NoDup_app in Hnd as (Hnd & Hfresh & _).
    rewrite dayMapping_snoc.
    destruct (decide (dc_dayIndex dc = d)) as [<-|Hne].
    + rewrite lookup_insert_eq. split.
      * intros [= <-]. rewrite lookup_app_r by (by rewrite length_fmap).
        by rewrite length_fmap, Nat.sub_diag.
      * intros Hn. destruct (decide (n < length (dc_dayIndex <$> l))) as [Hlt|Hge].
        -- rewrite lookup_app_l in Hn by done.
           destruct (Hfresh (dc_dayIndex dc)); [by eapply list_elem_of_lookup_2|].
           apply list_elem_of_here.
        -- apply lookup_lt_Some in Hn as Hlen. rewrite length_app in Hlen.
           rewrite length_fmap in Hlen, Hge. cbn in Hlen. f_equal. lia.
    + rewrite lookup_insert_ne by done. rewrite IH by done.
      destruct (decide (n < length (dc_dayIndex <$> l))) as [Hlt|Hge].
      * by rewrite lookup_app_l.
      * rewrite lookup_app_r by lia. rewrite lookup_ge_None_2 by lia.
        split; [done|]. intros Hn. apply list_lookup_singleton_Some in Hn as [_ ?]. done.
Qed.

(** After the drag, the containers carry the old indices in the new
    order. *)
Lemma drag_dayIndex (dom : list dayContainer) D order :
  dc_dayIndex <$> dom = seq 0 D →
  Forall (λ i, i < D) order →
  dc_dayIndex <$> omap (λ i, dom !! i) order = order.
Proof.
  intros Hdom. induction 1 as [|i order Hi _ IH]; [done|]. cbn.
  assert ((dc_dayIndex <$> dom) !! i = Some i) as Hl.
  { rewrite Hdom. by apply lookup_seq. }
  rewrite list_lookup_fmap in Hl. destruct (dom !! i) as [dc|]; [|done].
  cbn in Hl |- *. injection Hl as ->. by rewrite IH.
Qed.

Section ReorderFacts.
Context `{Platform}.
Implicit Types st : state.

Lemma onEnd_days_places st :
  places (onEnd_days st)
  = (λ p, set_day (pl_day p ≫= (dayMapping (itineraryContainer st) !!.)) p) <$> places st.
Proof.
  unfold onEnd_days. rewrite saveTrip_places.
  change (places (updateMarkerColors ?x)) with (places x).
  by rewrite createItineraryUI_places.
Qed.

Lemma onEnd_days_currentDays st : currentDays (onEnd_days st) = currentDays st.
Proof.
  unfold onEnd_days. rewrite saveTrip_currentDays.
  change (currentDays (updateMarkerColors ?x)) with (currentDays x).
  by rewrite createItineraryUI_currentDays.
Qed.

Lemma onEnd_days_dayIndex st D :
  currentDays st = Some D →
  dc_dayIndex <$> itineraryContainer (onEnd_days st) = seq 0 D.
Proof.
  intros HD. unfold onEnd_days. rewrite saveTrip_itineraryContainer.
  change (itineraryContainer (updateMarkerColors ?x)) with (itineraryContainer x).
  by apply createItineraryUI_dayIndex.
Qed.

(** One reordering: the containers are rendered for [D] days, the user
    leaves them in the order [order], and [perm] sends each old index to
    its new position. *)
Lemma reorderDays_step st D (perm order : list nat) :
  currentDays st = Some D →
  dc_dayIndex <$> itineraryContainer st = seq 0 D →
  order ≡ₚ seq 0 D →
  (∀ d n, perm !! d = Some n ↔ order !! n = Some d) →
  places (reorderDays order st)
  = (λ p, set_day (pl_day p ≫= (perm !!.)) p) <$> places st
  ∧ currentDays (reorderDays order st) = Some D
  ∧ dc_dayIndex <$> itineraryContainer (reorderDays order st) = seq 0 D.
Proof.
  intros HD Hdom Hperm Hinv. unfold reorderDays. split_and!.
  - rewrite onEnd_days_places. cbn [dragDays itineraryContainer places set_itineraryContainer].
    apply list_fmap_ext. intros _ p _. f_equal.
    destruct (pl_day p) as [d|]; [|done]. cbn.
    apply option_eq. intros n. rewrite dayMapping_lookup.
    + rewrite (drag_dayIndex _ D) by
        (done || (rewrite Hperm; apply Forall_forall; intros i Hi%elem_of_seq; lia)).
      by rewrite Hinv.
    + rewrite (drag_dayIndex _ D) by
        (done || (rewrite Hperm; apply Forall_forall; intros i Hi%elem_of_seq; lia)).
      rewrite Hperm. apply NoDup_seq.
  - by rewrite onEnd_days_currentDays.
  - by apply onEnd_days_dayIndex.
Qed.

(** C3. With the day lists rendered for [D] days and every place on a day
    below [D]: reordering the days by a permutation [perm] of [0 .. D-1]
    (the containers end up in the order [order], the inverse arrangement)
    gives every place, in one pass over [places], the day [perm[oldDay]],
    again below [D]: position by position the new record has
    [day = perm[oldDay]] and every other field as before, so the list of
    days after the reordering is the list of days before it, each sent
    through [perm]; and the inverse reordering after it gives back the
    places, and with them the days, as they were. *)
Theorem reorderDays_bijection st D (perm order : list nat) :
  currentDays st = Some D →
  dc_dayIndex <$> itineraryContainer st = seq 0 D →
  Forall (λ p, ∃ d, pl_day p = Some d ∧ d < D) (places st) →
  perm ≡ₚ seq 0 D → order ≡ₚ seq 0 D →
  (∀ d n, perm !! d = Some n ↔ order !! n = Some d) →
  places (reorderDays order st)
  = (λ p, set_day (pl_day p ≫= (perm !!.)) p) <$> places st
  ∧ Forall2 (λ p p', ∃ d n, pl_day p = Some d ∧ perm !! d = Some n ∧ n < D
                            ∧ pl_day p' = Some n
                            ∧ p' = Place (pl_id p) (pl_name p) (pl_lat p) (pl_lon p)
                                         (pl_tags p) (Some n) (pl_visited p)
                                         (pl_descriptionLoaded p) (pl_description p))
      (places st) (places (reorderDays order st))
  ∧ pl_day <$> places (reorderDays order st)
    = (λ p, pl_day p ≫= (perm !!.)) <$> places st
  ∧ places (reorderDays perm (reorderDays order st)) = places st
  ∧ pl_day <$> places (reorderDays perm (reorderDays order st)) = pl_day <$> places st.
Proof.
  intros HD Hdom Hdays Hperm Horder Hinv.
  destruct (reorderDays_step st D perm order HD Hdom Horder Hinv) as (Hps & HD' & Hdom').
  assert (∀ p, p ∈ places st → ∃ d n, pl_day p = Some d ∧ perm !! d = Some n ∧ n < D) as Hmap.
  { intros p Hp. rewrite Forall_forall in Hdays. destruct (Hdays p Hp) as (d & Hd & Hlt).
    destruct (lookup_lt_is_Some_2 perm d) as [n Hn].
    { by rewrite Hperm, length_seq. }
    exists d, n. split_and!; [done..|].
    apply list_elem_of_lookup_2 in Hn. rewrite Hperm in Hn. apply elem_of_seq in Hn. lia. }
  assert (places (reorderDays perm (reorderDays order st)) = places st) as Hback.
  { destruct (reorderDays_step (reorderDays order st) D order perm HD' Hdom' Hperm) as (Hps' & _).
    { intros d n. by rewrite Hinv. }
    rewrite Hps', Hps, <- list_fmap_compose.
    etrans; [|apply list_fmap_id]. apply list_fmap_ext. intros _ p Hp%list_elem_of_lookup_2.
    destruct (Hmap p Hp) as (d & n & Hd & Hn & _). cbn.
    unfold set_day at 2. cbn. rewrite Hd. cbn. rewrite Hn. cbn.
    apply Hinv in Hn. rewrite Hn. unfold set_day. cbn. rewrite <- Hd. by destruct p. }
  split_and!.
  - done.
  - rewrite Hps. apply Forall2_fmap_r, Forall_Forall2_diag, Forall_forall.
    intros p Hp. destruct (Hmap p Hp) as (d & n & Hd & Hn & Hlt).
    exists d, n. split_and!; [done..| |]; by rewrite Hd; cbn; rewrite Hn.
  - rewrite Hps, <- list_fmap_compose. by apply list_fmap_ext.
  - done.
  - by rewrite Hback.
Qed.

End ReorderFacts.

(** ** The sample platform, and the properties at sample inputs *)

Lemma pos_of_bits_of_pos p : pos_of_bits (bits_of_pos p) = Some p.
Proof. induction p as [p IH|p IH|]; cbn; [by rewrite IH..|done]. Qed.

(** The sample codec obeys the JSON law. *)
Lemma sample_codec_faithful (d : jsobject) :
  bits_stringify d ≠ "" ∧ bits_parse (bits_stringify d) = Some d.
Proof.
  split; [done|]. unfold bits_parse, bits_stringify.
  rewrite decide_True by done. rewrite pos_of_bits_of_pos. cbn. apply decode_encode.
Qed.

(** The Rome scenario: seven candidates, two days, so buckets of
    [ceil(7/2) = 4]: the four nearest on day 0 and the other three on
    day 1. *)
Example rome_scenario :
  (pl_name <$> places rome_state, pl_day <$> places rome_state)
  = (["Pantheon"; "Trevi"; "Forum"; "Colosseum"; "Borghese"; "Vatican"; "Appia"],
     [Some 0; Some 0; Some 0; Some 0; Some 1; Some 1; Some 1]).
Proof. vm_compute. reflexivity. Qed.

(** C4, at the Rome plan.  Toggling "101" twice restores the places, and
    with them the visited flag, but not the marker: "101" had one before
    and has none after. *)
Theorem toggleVisited_twice_marker_lost :
  let st2 := @toggleVisited sample_platform "101"
               (@toggleVisited sample_platform "101" rome_state) in
  places st2 = places rome_state
  ∧ (pl_visited <$> places rome_state) !! 0 = Some false
  ∧ bool_decide ("101" ∈ dom (markers rome_state)) = true
  ∧ markers st2 !! "101" = None.
Proof.
  split_and!; vm_compute; reflexivity.
Qed.

(** The builder on the Rome candidates, two days. *)
Lemma buildPlaces_partition_witness :
  let ps := @buildPlaces sample_platform 0 0 2 sample_elements in
  1 ≤ 2
  ∧ length ps = length (filter named sample_elements) `min` (2 * 5)
  ∧ concat ((λ d, bucket d ps) <$> seq 0 2) = ps.
Proof.
  pose proof (@buildPlaces_partition sample_platform 0 0 2 sample_elements
                ltac:(lia)) as (Hlen & _ & Hcat).
  split; [lia|]. split; [exact Hlen | exact Hcat].
Defined.

Lemma unknown_id_noop_witness :
  ("999" ∉ pl_id <$> places rome_state)
  ∧ @onEnd_poi sample_platform "999" 1 rome_state = rome_state
  ∧ @toggleVisited sample_platform "999" rome_state = rome_state.
Proof.
  assert ("999" ∉ (pl_id <$> places rome_state)) as Hid.
  { apply (bool_decide_unpack _). vm_compute. exact I. }
  split; [exact Hid|].
  exact (@unknown_id_noop sample_platform rome_state "999" 1 Hid).
Defined.

Lemma onEnd_poi_frame_witness :
  "103" ∈ (pl_id <$> places rome_state)
  ∧ length (places (@onEnd_poi sample_platform "103" 1 rome_state))
    = length (places rome_state)
  ∧ currentDays (@onEnd_poi sample_platform "103" 1 rome_state) = currentDays rome_state.
Proof.
  assert ("103" ∈ (pl_id <$> places rome_state)) as Hid.
  { apply (bool_decide_unpack _). vm_compute. exact I. }
  split; [exact Hid|].
  destruct (@onEnd_poi_frame sample_platform rome_state "103" 1 Hid)
    as (i & p & _ & _ & _ & _ & _ & _ & Hlen & _ & Hdays & _).
  split; [exact Hlen | exact Hdays].
Defined.



Lemma save_load_roundtrip_witness :
  let st := rome_state in
  let st' := @loadTrip sample_platform (@saveTrip sample_platform st) in
  truthy (currentTripKey st) = true ∧ currentMode st ≠ ""
  ∧ places st' = places st ∧ currentDest st' = currentDest st
  ∧ currentDays st' = currentDays st ∧ currentMode st' = currentMode st.
Proof.
  assert (truthy (currentTripKey rome_state) = true) as Hkey by (vm_compute; reflexivity).
  assert (currentMode rome_state ≠ "") as Hmode by (vm_compute; discriminate).
  split; [exact Hkey|]. split; [exact Hmode|].
  exact (proj2 (@save_load_roundtrip sample_platform rome_state
                  (@saveTrip sample_platform rome_state)
                  sample_codec_faithful Hkey Hmode
                  (@saveTrip_currentTripKey sample_platform rome_state) eq_refl)).
Defined.

Lemma plan_without_candidates_witness :
  let st' := @handlePlan sample_platform "Rome" 2 "walking" (Some [(0%Qc, 0%Qc)])
               (Some (Overpass (Some unnamed_elements))) empty_state in
  "Rome" ≠ "" ∧ (1 ≤ 2)%Z ∧ filter named unnamed_elements = []
  ∧ places st' = [] ∧ markers st' = ∅ ∧ length (itineraryContainer st') = 2.
Proof.
  assert (filter named unnamed_elements = []) as Hnone by (vm_compute; reflexivity).
  split; [discriminate|]. split; [lia|]. split; [exact Hnone|].
  destruct (@plan_without_candidates sample_platform empty_state "Rome" 2 "walking" 0 0 []
              (Overpass (Some unnamed_elements)) ltac:(discriminate) ltac:(lia) Hnone)
    as (Hps & _ & _ & _ & _ & Hmk & Hlen & _).
  split; [exact Hps|]. split; [exact Hmk | exact Hlen].
Defined.

(** Three days, rotated: day 0 becomes day 1, day 1 becomes day 2 and day
    2 becomes day 0; the containers then stand in the order 2, 0, 1. *)
Lemma reorderDays_bijection_witness :
  let st1 := @reorderDays sample_platform [2; 0; 1] rome3_state in
  currentDays rome3_state = Some 3
  ∧ pl_day <$> places rome3_state = [Some 0; Some 0; Some 0; Some 1; Some 1; Some 1; Some 2]
  ∧ pl_day <$> places st1 = [Some 1; Some 1; Some 1; Some 2; Some 2; Some 2; Some 0]
  ∧ places st1 = (λ p, set_day (pl_day p ≫= ([1; 2; 0] !!.)) p) <$> places rome3_state
  ∧ places (@reorderDays sample_platform [1; 2; 0] st1) = places rome3_state.
Proof.
  assert (currentDays rome3_state = Some 3) as HD by (vm_compute; reflexivity).
  assert (dc_dayIndex <$> itineraryContainer rome3_state = seq 0 3) as Hdom
    by (vm_compute; reflexivity).
  assert (pl_day <$> places rome3_state
          = [Some 0; Some 0; Some 0; Some 1; Some 1; Some 1; Some 2]) as Hdays
    by (vm_compute; reflexivity).
  assert (Forall (λ p, ∃ d, pl_day p = Some d ∧ d < 3) (places rome3_state)) as Hvalid.
  { apply (Forall_fmap pl_day (λ od, ∃ d, od = Some d ∧ d < 3)). rewrite Hdays.
    repeat (constructor; [eexists; split; [reflexivity|lia]|]). constructor. }
  assert ([1; 2; 0] ≡ₚ seq 0 3) as Hperm.
  { symmetry. exact (Permutation_cons_app [1; 2] [] 0 (Permutation_refl _)). }
  assert ([2; 0; 1] ≡ₚ seq 0 3) as Horder.
  { symmetry. apply (Permutation_cons_app [2] [1] 0). apply perm_swap. }
  assert (∀ d n, [1; 2; 0] !! d = Some n ↔ [2; 0; 1] !! n = Some d) as Hinv.
  { intros [|[|[|d]]] [|[|[|n]]]; cbn; split; intros [=]; done. }
  destruct (@reorderDays_bijection sample_platform rome3_state 3 [1; 2; 0] [2; 0; 1]
              HD Hdom Hvalid Hperm Horder Hinv) as (Hps & _ & Hmapped & Hback & _).
  split; [exact HD|]. split; [exact Hdays|]. split; [|split; [exact Hps | exact Hback]].
  rewrite Hmapped.
  transitivity ((λ od, od ≫= ([1; 2; 0] !!.)) <$> (pl_day <$> places rome3_state)).
  - exact (list_fmap_compose pl_day (λ od, od ≫= ([1; 2; 0] !!.)) (places rome3_state)).
  - rewrite Hdays. reflexivity.
Defined.

Lemma toggleVisited_twice_no_marker_witness :
  "101" ∈ (pl_id <$> places rome_state)
  ∧ bool_decide ("101" ∈ dom (markers rome_state)) = true
  ∧ markers (@toggleVisited sample_platform "101"
               (@toggleVisited sample_platform "101" rome_state)) !! "101" = None.
Proof.
  assert ("101" ∈ (pl_id <$> places rome_state)) as Hid.
  { apply (bool_decide_unpack _). vm_compute. exact I. }
  assert (pl_visited <$> places rome_state = replicate 7 false) as Hv
    by (vm_compute; reflexivity).
  split; [exact Hid|]. split; [vm_compute; reflexivity|].
  apply (@toggleVisited_twice_no_marker sample_platform rome_state "101" Hid).
  intros p Hp _.
  assert (pl_visited p ∈ pl_visited <$> places rome_state) as Hin
    by (by apply list_elem_of_fmap_2).
  rewrite Hv in Hin. cbn in Hin.
  repeat (apply elem_of_cons in Hin as [Hin|Hin]; [exact Hin|]).
  by apply elem_of_nil in Hin.
Defined.

(** * Further properties of the script *)

(** ** Markers follow the places *)

Section MarkerSync.
Implicit Types (m : gmap string marker) (ps : list place) (id : string).

(** With pairwise distinct ids, the marker that [createMarkers] leaves for
    an id is decided by the one place that carries it. *)
Lemma createMarkers_fold_lookup ps : ∀ m id,
  NoDup (pl_id <$> ps) →
  foldl (λ m p, if pl_visited p then m else <[pl_id p := mkMarker p]> m) m ps !! id
  = match list_find (λ p, pl_id p = id) ps with
    | Some (_, p) => if pl_visited p then m !! id else Some (mkMarker p)
    | None => m !! id
    end.
Proof.
  induction ps as [|p ps IH]; intros m id Hnd; [done|].
  rewrite fmap_cons in Hnd. apply NoDup_cons in Hnd as [Hp Hnd].
  cbn [foldl list_find]. rewrite IH by done. case_decide as Hid.
  - subst id. rewrite (proj2 (list_find_None _ ps)).
    2:{ apply Forall_forall. intros q Hq Heq. apply Hp. rewrite <- Heq.
        by apply list_elem_of_fmap_2. }
    cbn. destruct (pl_visited p); [done|]. by rewrite lookup_insert_eq.
  - assert ((if pl_visited p then m else <[pl_id p := mkMarker p]> m) !! id = m !! id) as ->.
    { destruct (pl_visited p); [done|]. by rewrite lookup_insert_ne. }
    by destruct (list_find _ ps) as [[j q]|].
Qed.

(** The same for the pass of [updateMarkerColors]: a visited place loses
    its marker, any other place has its marker recoloured in place. *)
Lemma updateMarker_fold_lookup ps : ∀ m id,
  NoDup (pl_id <$> ps) →
  foldl updateMarker m ps !! id
  = match list_find (λ p, pl_id p = id) ps with
    | Some (_, p) =>
        if pl_visited p then None
        else (λ mk, Marker (mk_lat mk) (mk_lon mk) (dayColor p)) <$> m !! id
    | None => m !! id
    end.
Proof.
  induction ps as [|p ps IH]; intros m id Hnd; [done|].
  rewrite fmap_cons in Hnd. apply NoDup_cons in Hnd as [Hp Hnd].
  cbn [foldl list_find]. rewrite IH by done. case_decide as Hid.
  - subst id. rewrite (proj2 (list_find_None _ ps)).
    2:{ apply Forall_forall. intros q Hq Heq. apply Hp. rewrite <- Heq.
        by apply list_elem_of_fmap_2. }
    cbn. unfold updateMarker. destruct (m !! pl_id p) as [mk|] eqn:Hm.
    + destruct (pl_visited p); [by rewrite lookup_delete_eq|by rewrite lookup_insert_eq].
    + rewrite Hm. by destruct (pl_visited p).
  - assert (updateMarker m p !! id = m !! id) as ->.
    { unfold updateMarker. destruct (m !! pl_id p); [|done].
      destruct (pl_visited p); [by rewrite lookup_delete_ne|by rewrite lookup_insert_ne]. }
    by destruct (list_find _ ps) as [[j q]|].
Qed.

(** [find] by id on two lists that carry the same ids position by
    position. *)
Lemma find_place_Forall2 (R : place → place → Prop) ps ps' id :
  Forall2 R ps ps' →
  (∀ p p', R p p' → pl_id p' = pl_id p) →
  (list_find (λ p, pl_id p = id) ps = None ∧ list_find (λ p, pl_id p = id) ps' = None)
  ∨ ∃ i p p', list_find (λ p, pl_id p = id) ps = Some (i, p)
              ∧ list_find (λ p, pl_id p = id) ps' = Some (i, p') ∧ R p p'.
Proof.
  intros HR Hid. induction HR as [|p p' ps ps' Hpp' _ IH]; [by left|].
  cbn [list_find]. rewrite (Hid p p' Hpp'). case_decide.
  - right. by exists 0, p, p'.
  - destruct IH as [[-> ->]|(i & q & q' & -> & -> & Hq)]; [by left|].
    right. by exists (S i), q, q'.
Qed.

Lemma markers_resync ps ps' :
  NoDup (pl_id <$> ps) →
  Forall2 followed ps ps' →
  foldl updateMarker
    (foldl (λ m p, if pl_visited p then m else <[pl_id p := mkMarker p]> m) ∅ ps) ps'
  = foldl (λ m p, if pl_visited p then m else <[pl_id p := mkMarker p]> m) ∅ ps'.
Proof.
  intros Hnd HR. apply map_eq. intros id.
  assert (pl_id <$> ps' = pl_id <$> ps) as Hids.
  { clear Hnd. induction HR as [|p p' ps ps' (Hp & _) _ IH]; [done|]. cbn. by rewrite Hp, IH. }
  rewrite updateMarker_fold_lookup by (by rewrite Hids).
  rewrite !createMarkers_fold_lookup by (done || by rewrite Hids).
  destruct (find_place_Forall2 followed ps ps' id HR) as [[-> ->]|(i & p & p' & -> & -> & Hpp')].
  { by intros p p' (? & _). }
  { done. }
  destruct Hpp' as (_ & Hlat & Hlon & Hv).
  destruct (pl_visited p') eqn:Hv'; [done|].
  destruct (pl_visited p); [by discriminate Hv|].
  cbn. unfold mkMarker. cbn. by rewrite Hlat, Hlon.
Qed.

End MarkerSync.

Lemma followed_refl p : followed p p.
Proof. by repeat split. Qed.

Lemma insert_followed (ps : list place) i p p' :
  ps !! i = Some p → followed p p' → Forall2 followed ps (<[i := p']> ps).
Proof.
  intros Hp Hpp'. apply Forall2_same_length_lookup. split; [by rewrite length_insert|].
  intros j x y Hx Hy. destruct (decide (j = i)) as [->|Hne].
  - rewrite list_lookup_insert_eq in Hy by (by eapply lookup_lt_Some). by simplify_eq.
  - rewrite list_lookup_insert_ne in Hy by done. simplify_eq. apply followed_refl.
Qed.

Lemma followed_ids (ps ps' : list place) :
  Forall2 followed ps ps' → pl_id <$> ps' = pl_id <$> ps.
Proof. induction 1 as [|p p' ps ps' (Hp & _) _ IH]; [done|]. cbn. by rewrite Hp, IH. Qed.

Section SyncFacts.
Context `{Platform}.
Implicit Types (st : state) (id : string).

(** An edit that sets new places and then runs [updateMarkerColors] and
    [saveTrip] keeps the markers in sync when every place is followed. *)
Lemma edit_keeps_sync st ps' :
  markers_in_sync st → NoDup (pl_id <$> places st) →
  Forall2 followed (places st) ps' →
  markers_in_sync (saveTrip (updateMarkerColors (set_places ps' st))).
Proof.
  intros Hsync Hnd HR. unfold markers_in_sync in *.
  rewrite saveTrip_markers. unfold createMarkers in *. cbn [markers set_markers] in *.
  rewrite saveTrip_places. cbn [updateMarkerColors places markers set_markers set_places].
  rewrite Hsync. by apply markers_resync.
Qed.

(** Moving a POI and reordering the days keep the markers in sync: with
    pairwise distinct ids, if the markers were those [createMarkers] would
    make, they still are afterwards (one per place that is not visited, at
    its position, in the colour of its new day), and the ids stay
    distinct. *)
Theorem move_reorder_keep_markers st id newDayIndex :
  markers_in_sync st → NoDup (pl_id <$> places st) →
  (markers_in_sync (onEnd_poi id newDayIndex st)
   ∧ NoDup (pl_id <$> places (onEnd_poi id newDayIndex st)))
  ∧ (markers_in_sync (onEnd_days st)
     ∧ NoDup (pl_id <$> places (onEnd_days st))).
Proof.
  intros Hsync Hnd. split.
  - unfold onEnd_poi. destruct (list_find _ _) as [[i p]|] eqn:Hf; [|done].
    apply list_find_Some in Hf as (Hp & _ & _).
    assert (Forall2 followed (places st) (<[i := set_day (Some newDayIndex) p]> (places st))) as HR.
    { apply (insert_followed _ i p); [done|]. by repeat split. }
    split; [by apply edit_keeps_sync|].
    rewrite saveTrip_places. cbn. by rewrite (followed_ids _ _ HR).
  - set (f := λ p, set_day (pl_day p ≫= (dayMapping (itineraryContainer st) !!.)) p).
    assert (Forall2 followed (places st) (f <$> places st)) as HR.
    { apply Forall2_fmap_r, Forall_Forall2_diag, Forall_forall. intros p _. by repeat split. }
    split.
    + unfold markers_in_sync, createMarkers in *. cbn [markers set_markers] in *.
      rewrite onEnd_days_places. fold f.
      unfold onEnd_days. rewrite saveTrip_markers.
      cbn [updateMarkerColors markers set_markers].
      rewrite createItineraryUI_places, createItineraryUI_markers.
      cbn [places markers set_places set_itineraryContainer]. fold f.
      rewrite Hsync. by apply markers_resync.
    + rewrite onEnd_days_places. fold f. by rewrite (followed_ids _ _ HR).
Qed.

(** Marking a place visited keeps the markers in sync; unmarking it does
    not: the place is then not visited and [createMarkers] would give it a
    marker, but it has none. *)
Theorem toggleVisited_sync st id i p :
  markers_in_sync st → NoDup (pl_id <$> places st) →
  places st !! i = Some p → pl_id p = id →
  (pl_visited p = false → markers_in_sync (toggleVisited id st))
  ∧ (pl_visited p = true →
       markers (toggleVisited id st) !! id = None
       ∧ markers (createMarkers (toggleVisited id st)) !! id
         = Some (mkMarker (set_visited false p))).
Proof.
  intros Hsync Hnd Hp Hid.
  assert (list_find (λ pl, pl_id pl = id) (places st) = Some (i, p)) as Hf.
  { apply list_find_Some. split_and!; [done..|]. intros j q Hq Hji Hqid.
    assert (j = i); [|lia].
    eapply (NoDup_lookup (pl_id <$> places st)); [done|..].
    - by rewrite list_lookup_fmap, Hq.
    - rewrite list_lookup_fmap, Hp. cbn. congruence. }
  assert (i < length (places st)) as Hi by (by eapply lookup_lt_Some).
  split; intros Hv.
  - unfold toggleVisited. rewrite Hf, Hv. cbn [negb].
    apply (edit_keeps_sync (set_itineraryContainer _ st)); [done..|].
    apply (insert_followed _ i p); [done|]. by repeat split.
  - split.
    + apply toggleVisited_keeps_absent. rewrite Hsync. unfold createMarkers. cbn.
      rewrite createMarkers_fold_lookup, Hf, Hv by done. done.
    + unfold createMarkers. cbn [markers set_markers].
      rewrite createMarkers_fold_lookup.
      2:{ unfold toggleVisited. rewrite Hf, saveTrip_places. cbn.
          rewrite list_fmap_insert. cbn. by rewrite list_insert_id by (by rewrite list_lookup_fmap, Hp). }
      unfold toggleVisited. rewrite Hf, saveTrip_places. cbn.
      rewrite (find_place_insert (places st) id i p (set_visited (negb (pl_visited p)) p) Hf Hid).
      rewrite Hv. done.
Qed.

End SyncFacts.

(** ** What a plan produces *)

Lemma dayColor_defined p d :
  pl_day p = Some d → ∃ c, dayColor p = Some c ∧ dayColors !! (d mod 8) = Some c.
Proof.
  intros Hd. unfold dayColor. rewrite Hd. change (length dayColors) with 8.
  destruct (lookup_lt_is_Some_2 dayColors (d mod 8)) as [c Hc].
  { change (length dayColors) with 8. apply Nat.mod_upper_bound. lia. }
  exists c. split; [|done]. exact Hc.
Qed.

Section PlanFacts.
Context `{Platform}.
Implicit Types (lat lon : Qc) (elements : list element) (st : state).

(** Every place the builder makes comes from a named candidate: it has
    that candidate's id (in decimal), position and tags, its name is the
    non-empty [name] tag, and it starts not visited, with no description
    loaded. *)
Theorem buildPlaces_fields lat lon D elements :
  Forall (λ p,
    pl_visited p = false ∧ pl_descriptionLoaded p = false ∧ pl_description p = ""
    ∧ pl_name p ≠ "" ∧ pl_tags p !! "name" = Some (pl_name p)
    ∧ ∃ el, el ∈ elements ∧ pl_id p = pretty (el_id el)
            ∧ pl_lat p = el_lat el ∧ pl_lon p = el_lon el ∧ el_tags el = Some (pl_tags p))
    (buildPlaces lat lon D elements).
Proof.
  apply Forall_lookup. intros i p (c & Hc & _ & ->)%buildPlaces_lookup.
  apply list_elem_of_lookup_2 in Hc. unfold ranked, by_distance in Hc.
  rewrite Array_sort_perm in Hc. apply list_elem_of_fmap in Hc as (el & -> & Hel).
  apply list_elem_of_filter in Hel as [Hn Hel]. cbn.
  unfold named in Hn. destruct (el_tags el) as [t|] eqn:Ht; [|done]. cbn.
  destruct (t !! "name") as [n|] eqn:Hname; [|done]. cbn.
  apply bool_decide_unpack in Hn. split_and!; try done. by exists el.
Qed.

(** Distinct element ids give distinct place ids. *)
Lemma buildPlaces_unique_ids lat lon D elements :
  NoDup (el_id <$> elements) →
  NoDup (pl_id <$> buildPlaces lat lon D elements).
Proof.
  intros Hnd. unfold buildPlaces. rewrite fmap_imap.
  rewrite (imap_ext _ (λ _ c, pretty (el_id c.1))) by done.
  change (imap (λ _ c, pretty (el_id c.1))) with
    (imap (const (λ c : element * Qc, pretty (el_id c.1)))).
  rewrite imap_const.
  apply (sublist_NoDup _ ((λ c : element * Qc, pretty (el_id c.1)) <$> ranked lat lon elements));
    [|apply fmap_sublist, sublist_take].
  unfold ranked, by_distance. rewrite Array_sort_perm, <- list_fmap_compose.
  change ((λ c : element * Qc, pretty (el_id c.1)) ∘ with_distance lat lon)
    with (pretty ∘ el_id).
  rewrite list_fmap_compose. apply (NoDup_fmap_2 _).
  apply (sublist_NoDup _ (el_id <$> elements)); [exact Hnd|].
  apply fmap_sublist, sublist_filter.
Qed.

(** The places are the nearest candidates: no candidate left out by the
    cap is nearer than a selected one. *)
Theorem buildPlaces_nearest lat lon D elements :
  let selected := length (filter named elements) `min` (D * 5) in
  ∀ i c p, ranked lat lon elements !! i = Some c → selected ≤ i →
           p ∈ buildPlaces lat lon D elements →
           (haversine lat lon (pl_lat p) (pl_lon p) ≤ c.2)%Qc.
Proof.
  intros selected i c p Hc Hi [j Hp]%list_elem_of_lookup.
  apply buildPlaces_lookup in Hp as (c' & Hc' & Hj & ->). cbn.
  destruct (ranked_distance lat lon elements c') as [_ <-]; [by eapply list_elem_of_lookup_2|].
  eapply (StronglySorted_lookup (λ a b, a.2 ≤ b.2)%Qc (ranked lat lon elements) j i);
    [apply Array_sort_sorted | fold selected in Hj; lia | done..].
Qed.

(** A request that fails a check of [handlePlan], or whose lookups fail or
    find no destination, leaves the planner state untouched. *)
Theorem handlePlan_rejects dest days mode geoData overData st :
  dest = "" ∨ (days < 1)%Z ∨ geoData = None ∨ geoData = Some [] ∨ overData = None →
  handlePlan dest days mode geoData overData st = st.
Proof.
  intros Hbad. unfold handlePlan.
  case_bool_decide; [done|]. destruct Hbad as [?|Hbad]; [done|].
  destruct (bool_decide (days = 0%Z) || bool_decide (days < 1)%Z) eqn:Hd; [done|].
  apply orb_false_iff in Hd as [_ Hd%bool_decide_eq_false].
  destruct Hbad as [?|[Hg|[Hg|Ho]]]; [done|by rewrite Hg..|].
  rewrite Ho. by destruct geoData as [[|[? ?] ?]|].
Qed.

(** After a plan over elements with distinct ids: the place ids are
    distinct, the markers are in sync, and every place has its marker, at
    its position and in the palette colour of its day. *)
Theorem handlePlan_markers st dest days mode lat lon geo o :
  dest ≠ "" → (1 ≤ days)%Z →
  NoDup (el_id <$> default [] (ov_elements o)) →
  let st' := handlePlan dest days mode (Some ((lat, lon) :: geo)) (Some o) st in
  NoDup (pl_id <$> places st')
  ∧ markers_in_sync st'
  ∧ ∀ p, p ∈ places st' →
      ∃ d c, pl_day p = Some d ∧ d < Z.to_nat days ∧ dayColors !! (d mod 8) = Some c
             ∧ markers st' !! pl_id p = Some (Marker (pl_lat p) (pl_lon p) (Some c)).
Proof.
  intros Hdest Hdays Hnd st'.
  destruct (handlePlan_planned st dest days mode lat lon geo o Hdest Hdays)
    as (Hps & _ & _ & _ & _ & _ & _). fold st' in Hps.
  assert (NoDup (pl_id <$> places st')) as Hids.
  { rewrite Hps. by apply buildPlaces_unique_ids. }
  assert (markers st' = markers (createMarkers st')) as Hsync.
  { subst st'. unfold handlePlan.
    rewrite (bool_decide_eq_false_2 (dest = "")) by done.
    rewrite (bool_decide_eq_false_2 (days = 0%Z)) by lia.
    by rewrite (bool_decide_eq_false_2 (days < 1)%Z) by lia. }
  split_and!; [done..|]. intros p Hp.
  assert (∃ d, pl_day p = Some d ∧ d < Z.to_nat days ∧ pl_visited p = false) as (d & Hd & Hlt & Hv).
  { rewrite Hps in Hp. apply list_elem_of_lookup in Hp as [i Hi].
    assert (1 ≤ Z.to_nat days) as HD by lia.
    pose proof (buildPlaces_day _ _ _ _ _ _ HD Hi) as Hday.
    apply buildPlaces_lookup in Hi as (c & _ & Hi & ->).
    eexists. split; [exact Hday|]. split; [|done]. apply bucket_index_lt; lia. }
  destruct (dayColor_defined p d Hd) as (c & Hc & Hpal).
  exists d, c. split_and!; [done..|].
  rewrite Hsync. unfold createMarkers. cbn [markers set_markers].
  rewrite createMarkers_fold_lookup by done.
  destruct (list_elem_of_lookup_1 _ _ Hp) as [i Hi].
  assert (list_find (λ q, pl_id q = pl_id p) (places st') = Some (i, p)) as ->.
  { apply list_find_Some. split_and!; [done..|]. intros j q Hq Hji Hqid.
    assert (j = i); [|lia].
    eapply (NoDup_lookup (pl_id <$> places st')); [done|..].
    - by rewrite list_lookup_fmap, Hq.
    - rewrite list_lookup_fmap, Hi. cbn. congruence. }
  rewrite Hv. unfold mkMarker. by rewrite Hc.
Qed.

End PlanFacts.

(** ** Storage keys never collide *)

Lemma has_char_app c s1 s2 : has_char c (s1 +:+ s2) = has_char c s1 || has_char c s2.
Proof.
  induction s1 as [|a s1 IH]; [done|].
  change (String a s1 +:+ s2) with (String a (s1 +:+ s2)).
  cbn [has_char]. by rewrite IH, orb_assoc.
Qed.

Lemma tripKey_underscore user dest days : has_char "_" (tripKey user dest days) = true.
Proof.
  unfold tripKey. rewrite !has_char_app. cbn.
  by rewrite !orb_true_r.
Qed.

Lemma lastTripKey_underscore user : has_char "_" (lastTripKey user) = true.
Proof. unfold lastTripKey. rewrite has_char_app. cbn. by rewrite orb_true_r. Qed.

Lemma tripKey_not_lastTripKey user dest days : lastTripKey user ≠ tripKey user dest days.
Proof.
  unfold lastTripKey, tripKey. intros Heq.
  apply (String.app_inj (template_user user)) in Heq. discriminate Heq.
Qed.

Lemma tripKey_nonempty user dest days : tripKey user dest days ≠ "".
Proof. intros Heq. pose proof (tripKey_underscore user dest days) as Hu. by rewrite Heq in Hu. Qed.

Lemma tripKey_not_currentUser user dest days : tripKey user dest days ≠ "currentUser".
Proof. intros Heq. pose proof (tripKey_underscore user dest days) as Hu. by rewrite Heq in Hu. Qed.

Lemma lastTripKey_not_currentUser user : lastTripKey user ≠ "currentUser".
Proof. intros Heq. pose proof (lastTripKey_underscore user) as Hu. by rewrite Heq in Hu. Qed.

Lemma tripKey_not_users user dest days : tripKey user dest days ≠ "users".
Proof. intros Heq. pose proof (tripKey_underscore user dest days) as Hu. by rewrite Heq in Hu. Qed.

Lemma lastTripKey_not_users user : lastTripKey user ≠ "users".
Proof. intros Heq. pose proof (lastTripKey_underscore user) as Hu. by rewrite Heq in Hu. Qed.

(** The key rebuilt from a pointer that has both fields is the key of the
    plan. *)
Lemma restored_key user dest days :
  template_user (Some user) +:+ "_trip_" +:+ template_dest (Some dest) +:+ "_"
    +:+ template_days (Some days)
  = tripKey (Some user) dest days.
Proof. done. Qed.

(** ** Every edit is saved, and a reload brings it back *)

Section SessionFacts.
Context `{Platform}.
Implicit Types (st : state) (id : string).

Lemma saveTrip_saved st :
  truthy (currentTripKey st) = true → trip_saved (saveTrip st).
Proof.
  intros Hkey. unfold trip_saved, stored_payload. rewrite saveTrip_currentTripKey.
  split; [done|]. destruct (currentTripKey st) as [key|] eqn:Hk; [|done].
  cbn. unfold saveTrip at 1. rewrite Hk, Hkey. cbn. rewrite lookup_insert_eq.
  do 2 f_equal. unfold tripData. by rewrite saveTrip_frame.
Qed.

Lemma saveTrip_pointer st st0 :
  pointer_saved st0 →
  currentUser st = currentUser st0 → currentDest st = currentDest st0 →
  currentDays st = currentDays st0 → currentTripKey st = currentTripKey st0 →
  localStorage st = localStorage st0 →
  pointer_saved (saveTrip st).
Proof.
  intros (user & dest & days & pm & Hu & Hdne & Hcu & Hls & Hd & Hn & Hk & Hp) Eu Ed En Ek Els.
  exists user, dest, days, pm.
  assert (localStorage (saveTrip st)
          = <[tripKey (Some user) dest days := JSON_stringify (tripData st)]> (localStorage st0)) as Hst.
  { unfold saveTrip. rewrite Ek, Hk. cbn.
    rewrite bool_decide_eq_true_2 by apply tripKey_nonempty. cbn. by rewrite Els. }
  rewrite Hst, saveTrip_frame. cbn. rewrite Eu, Ed, En, Ek.
  split_and!; try done.
  - by rewrite lookup_insert_ne by apply tripKey_not_currentUser.
  - rewrite lookup_insert_ne; [done|]. intros Heq. by apply (tripKey_not_lastTripKey (Some user) dest days).
Qed.

Lemma render_keeps_saved st :
  (trip_saved st → trip_saved (createMarkers (createItineraryUI st)))
  ∧ (pointer_saved st → pointer_saved (createMarkers (createItineraryUI st))).
Proof.
  unfold trip_saved, pointer_saved, stored_payload, tripData.
  rewrite createItineraryUI_frame. by cbn.
Qed.

(** Every edit ends with the stored text equal to the trip in memory, and
    keeps the user's last-trip pointer. *)
Theorem edits_are_saved st id newDayIndex :
  truthy (currentTripKey st) = true →
  (trip_saved (onEnd_days st)
   ∧ (id ∈ pl_id <$> places st →
      trip_saved (toggleVisited id st) ∧ trip_saved (onEnd_poi id newDayIndex st)))
  ∧ (pointer_saved st →
     pointer_saved (onEnd_days st) ∧ pointer_saved (toggleVisited id st)
     ∧ pointer_saved (onEnd_poi id newDayIndex st)).
Proof.
  intros Hkey. split; [split|].
  - unfold onEnd_days. apply saveTrip_saved.
    change (currentTripKey (updateMarkerColors ?x)) with (currentTripKey x).
    by rewrite createItineraryUI_frame.
  - intros Hid. destruct (find_place_Some st id Hid) as (i & p & Hf & _).
    unfold toggleVisited, onEnd_poi. rewrite Hf. split; by apply saveTrip_saved.
  - intros Hptr. split_and!.
    + unfold onEnd_days. apply (saveTrip_pointer _ st Hptr);
        change (updateMarkerColors ?x) with (set_markers (foldl updateMarker (markers x) (places x)) x);
        by rewrite createItineraryUI_frame.
    + unfold toggleVisited. destruct (list_find _ _) as [[i p]|]; [|done].
      by apply (saveTrip_pointer _ st Hptr).
    + unfold onEnd_poi. destruct (list_find _ _) as [[i p]|]; [|done].
      by apply (saveTrip_pointer _ st Hptr).
Qed.

Lemma plan_is_saved st user dest days mode lat lon geo o :
  dest ≠ "" → (1 ≤ days)%Z →
  user ≠ "" → currentUser st = Some user → localStorage st !! "currentUser" = Some user →
  let st' := handlePlan dest days mode (Some ((lat, lon) :: geo)) (Some o) st in
  trip_saved st' ∧ pointer_saved st'.
Proof.
  intros Hdest Hdays Hu Hcu Hls st'. subst st'. unfold handlePlan.
  rewrite (bool_decide_eq_false_2 (dest = "")) by done.
  rewrite (bool_decide_eq_false_2 (days = 0%Z)) by lia.
  rewrite (bool_decide_eq_false_2 (days < 1)%Z) by lia. cbn [orb].
  set (st1 := set_localStorage _ _).
  assert (truthy (currentTripKey st1) = true) as Hkey.
  { cbn. apply bool_decide_eq_true_2, tripKey_nonempty. }
  assert (pointer_saved st1) as Hptr.
  { exists user, dest, (Z.to_nat days), mode. subst st1. cbn. rewrite Hcu.
    split_and!; try done.
    - by rewrite lookup_insert_ne by apply lastTripKey_not_currentUser.
    - by rewrite lookup_insert_eq. }
  split.
  - by apply render_keeps_saved, saveTrip_saved.
  - by apply render_keeps_saved, (saveTrip_pointer st1 st1).
Qed.


(** Restoring in a state that has the user and the storage of a saved
    session gives back that session's trip. *)
Lemma restoreLastTrip_saved st0 st :
  JSON_law → pointer_saved st → trip_saved st → currentMode st ≠ "" →
  currentUser st0 = currentUser st → localStorage st0 = localStorage st →
  let st' := restoreLastTrip st0 in
  currentUser st' = currentUser st
  ∧ places st' = places st
  ∧ currentDest st' = currentDest st
  ∧ currentDays st' = currentDays st
  ∧ currentMode st' = currentMode st
  ∧ currentTripKey st' = currentTripKey st
  ∧ markers_in_sync st'
  ∧ localStorage st' = localStorage st.
Proof.
  intros Hjson (user & dest & days & pm & Hu & Hdne & Hcu & Hls & Hd & Hn & Hk & Hp)
    [_ Hsaved] Hmode Eu Els st'.
  unfold stored_payload in Hsaved. rewrite Hk in Hsaved. cbn in Hsaved.
  destruct (Hjson (JsObject None (Some dest) (Some days) (Some pm))) as [Hne1 Hparse1].
  destruct (Hjson (tripData st)) as [Hne2 Hparse2].
  subst st'. unfold restoreLastTrip. rewrite Eu, Els, Hcu, Hp.
  cbn [truthy mbind option_bind]. rewrite bool_decide_eq_true_2 by done. rewrite Hparse1.
  cbn [o_dest o_days o_mode]. rewrite restored_key.
  erewrite loadTrip_parsed;
    [| reflexivity | apply tripKey_nonempty | cbn; rewrite Els; exact Hsaved | done | done].
  rewrite Hd, Hn, Hk. unfold markers_in_sync.
  rewrite createItineraryUI_frame. cbn. rewrite Eu, Els, Hcu. split_and!; try done.
  unfold mode_or_driving. cbn. by rewrite bool_decide_eq_true_2.
Qed.

(** Running the script again over the storage of a saved session gives
    back the user, the trip (places, destination, day count, mode) and its
    key, with markers in sync, and leaves the storage as it was. *)
Theorem reload_restores st :
  JSON_law → pointer_saved st → trip_saved st → currentMode st ≠ "" →
  let st' := startup (localStorage st) in
  currentUser st' = currentUser st
  ∧ places st' = places st
  ∧ currentDest st' = currentDest st
  ∧ currentDays st' = currentDays st
  ∧ currentMode st' = currentMode st
  ∧ currentTripKey st' = currentTripKey st
  ∧ markers_in_sync st'
  ∧ localStorage st' = localStorage st.
Proof.
  intros Hjson Hptr Hsaved Hmode. pose proof Hptr as Hptr'.
  destruct Hptr' as (user & dest & days & pm & Hu & _ & Hcu & Hls & _).
  unfold startup. cbn [initialState currentUser]. rewrite Hls. cbn [truthy].
  rewrite bool_decide_eq_true_2 by done.
  apply restoreLastTrip_saved; [done..| |done]. cbn. by rewrite Hcu.
Qed.


End SessionFacts.

(** ** Login *)

Section LoginFacts.
Context `{Platform, AuthPlatform}.
Implicit Types (st : state) (username password : string).

Lemma loadTrip_storage st :
  localStorage (loadTrip st) = localStorage st ∧ currentUser (loadTrip st) = currentUser st.
Proof.
  unfold loadTrip. repeat case_match; try done.
  by rewrite createItineraryUI_frame.
Qed.

Lemma restoreLastTrip_storage st :
  localStorage (restoreLastTrip st) = localStorage st
  ∧ currentUser (restoreLastTrip st) = currentUser st.
Proof.
  unfold restoreLastTrip. repeat case_match; try done.
  match goal with
  | |- context [loadTrip ?x] => by destruct (loadTrip_storage x) as [-> ->]
  end.
Qed.

Lemma loginSucceeds_user username storage st :
  currentUser (loginSucceeds username storage st) = Some username
  ∧ localStorage (loginSucceeds username storage st) = <["currentUser" := username]> storage.
Proof.
  unfold loginSucceeds. destruct (restoreLastTrip_storage
    (set_currentUser (Some username)
       (set_localStorage (<["currentUser" := username]> storage) st))) as [-> ->]. done.
Qed.

Lemma stored_users_insert st storage username :
  localStorage st = <["currentUser" := username]> storage →
  stored_users st
  = (if truthy (storage !! "users") then storage !! "users" ≫= users_parse else Some ∅).
Proof. intros Hls. unfold stored_users. by rewrite Hls, lookup_insert_ne. Qed.

(** Whoever gets logged in has non-empty credentials, and afterwards the
    stored users object holds the [btoa] code of the given password under
    the given name; the user is current in memory and in storage. *)
Theorem handleLogin_sound username password st st' :
  users_law →
  handleLogin username password st = LoggedIn st' →
  username ≠ "" ∧ password ≠ ""
  ∧ currentUser st' = Some username
  ∧ localStorage st' !! "currentUser" = Some username
  ∧ ∃ users code, stored_users st' = Some users ∧ users !! username = Some code
                  ∧ btoa password = Some code.
Proof.
  intros Hlaw. unfold handleLogin.
  destruct (bool_decide (username = "") || bool_decide (password = "")) eqn:Hcred; [done|].
  apply orb_false_iff in Hcred as [Hu%bool_decide_eq_false Hp%bool_decide_eq_false].
  destruct (stored_users st) as [users|] eqn:Hus; [|done].
  destruct (btoa password) as [code|] eqn:Hcode; [|by destruct (unregistered _)].
  destruct (unregistered (users_member users username)) eqn:Hreg.
  - intros [= <-].
    destruct (loginSucceeds_user username
                (<["users" := users_stringify (<[username := code]> users)]> (localStorage st)) st)
      as [Hcu Hls].
    split_and!; [done..|by rewrite Hls, lookup_insert_eq|].
    exists (<[username := code]> users), code.
    rewrite (stored_users_insert _ _ _ Hls), lookup_insert_eq.
    destruct (Hlaw (<[username := code]> users)) as [Hne Hparse].
    cbn. rewrite bool_decide_eq_true_2 by done. by rewrite Hparse, lookup_insert_eq.
  - destruct (member_is code (users_member users username)) eqn:Hm; [|done].
    intros [= <-].
    destruct (loginSucceeds_user username (localStorage st) st) as [Hcu Hls].
    split_and!; [done..|by rewrite Hls, lookup_insert_eq|].
    exists users, code. rewrite (stored_users_insert _ _ _ Hls).
    split; [exact Hus|]. split; [|done].
    unfold users_member in Hm. destruct (users !! username) as [v|]; [|by destruct (inherited _)].
    cbn in Hm. by apply bool_decide_eq_true_1 in Hm as ->.
Qed.

(** A new name is registered by its first login, and from then on, in any
    state whose users entry is the one just written, the same password is
    accepted and any other password is refused. *)
Theorem register_then_login username password st users code :
  users_law → btoa_law →
  username ≠ "" → password ≠ "" →
  stored_users st = Some users → users_member users username = Missing →
  btoa password = Some code →
  ∃ st1, handleLogin username password st = LoggedIn st1
    ∧ ∀ st2, localStorage st2 !! "users" = localStorage st1 !! "users" →
        (∃ st3, handleLogin username password st2 = LoggedIn st3)
        ∧ ∀ other, other ≠ password → other ≠ "" →
            handleLogin username other st2 = LoginError "Incorrect password."
            ∨ handleLogin username other st2 = LoginThrows.
Proof.
  intros Hlaw [Hinj Hcode_ne] Hu Hp Hus Hmiss Hcode.
  eexists. split.
  { unfold handleLogin. rewrite !bool_decide_eq_false_2 by done. cbn [orb].
    by rewrite Hus, Hmiss, Hcode. }
  intros st2 Hst2.
  assert (stored_users st2 = Some (<[username := code]> users)) as Hus2.
  { unfold stored_users. rewrite Hst2.
    destruct (loginSucceeds_user username
                (<["users" := users_stringify (<[username := code]> users)]> (localStorage st)) st)
      as [_ ->].
    rewrite lookup_insert_ne by done. rewrite lookup_insert_eq.
    destruct (Hlaw (<[username := code]> users)) as [Hne Hparse].
    cbn. by rewrite bool_decide_eq_true_2, Hparse by done. }
  assert (code ≠ "") as Hcne by (by eapply Hcode_ne).
  assert (users_member (<[username := code]> users) username = Own code) as Hown.
  { unfold users_member. by rewrite lookup_insert_eq. }
  split.
  - eexists. unfold handleLogin. rewrite !bool_decide_eq_false_2 by done. cbn [orb].
    rewrite Hus2, Hown. cbn. rewrite bool_decide_eq_false_2 by done.
    rewrite Hcode. by rewrite bool_decide_eq_true_2.
  - intros other Hother Hone. unfold handleLogin.
    rewrite !bool_decide_eq_false_2 by done. cbn [orb].
    rewrite Hus2, Hown. cbn. rewrite bool_decide_eq_false_2 by done.
    destruct (btoa other) as [c|] eqn:Hc; [|by right]. left.
    rewrite bool_decide_eq_false_2; [done|]. intros <-. apply Hother. by eapply Hinj.
Qed.

(** A name that the users object answers for without owning it (a member
    of [Object.prototype], such as "constructor") can neither register nor
    log in: every attempt ends in "Incorrect password." (or in the
    exception of [btoa]). *)
Theorem inherited_name_locked_out username password st users :
  username ≠ "" → password ≠ "" →
  stored_users st = Some users →
  users !! username = None → inherited username = true →
  handleLogin username password st
  = match btoa password with
    | Some _ => LoginError "Incorrect password."
    | None => LoginThrows
    end.
Proof.
  intros Hu Hp Hus Hnone Hinh. unfold handleLogin.
  rewrite !bool_decide_eq_false_2 by done. cbn [orb].
  rewrite Hus. unfold users_member. rewrite Hnone, Hinh. cbn.
  by destruct (btoa password).
Qed.

(** Logging out and logging in again with the stored credentials brings
    the saved session back: the places, destination, day count, mode and
    key, with markers in sync. *)
Theorem logout_login_restores username password st users code :
  JSON_law →
  pointer_saved st → trip_saved st → currentMode st ≠ "" →
  currentUser st = Some username → password ≠ "" →
  stored_users st = Some users → users !! username = Some code → code ≠ "" →
  btoa password = Some code →
  ∃ st', handleLogin username password (handleLogout st) = LoggedIn st'
    ∧ currentUser st' = Some username
    ∧ places st' = places st
    ∧ currentDest st' = currentDest st
    ∧ currentDays st' = currentDays st
    ∧ currentMode st' = currentMode st
    ∧ currentTripKey st' = currentTripKey st
    ∧ markers_in_sync st'
    ∧ localStorage st' = localStorage st.
Proof.
  intros Hjson Hptr Hsaved Hmode Hcu Hp Hus Hown Hcne Hcode. pose proof Hptr as Hptr'.
  destruct Hptr' as (user & dest & days & pm & Hu & _ & Hcu' & Hls & _).
  assert (user = username) as -> by congruence.
  assert (handleLogout st = initialState (delete "currentUser" (localStorage st))) as Hout.
  { unfold handleLogout, startup. cbn. by rewrite lookup_delete_eq. }
  eexists. split.
  { unfold handleLogin. rewrite !bool_decide_eq_false_2 by done. cbn [orb].
    assert (stored_users (handleLogout st) = Some users) as ->.
    { rewrite Hout. unfold stored_users in *. cbn. by rewrite lookup_delete_ne. }
    unfold users_member. rewrite Hown. cbn. rewrite bool_decide_eq_false_2 by done.
    rewrite Hcode. by rewrite bool_decide_eq_true_2. }
  unfold loginSucceeds.
  assert (<["currentUser" := username]> (localStorage (handleLogout st)) = localStorage st) as Hback.
  { rewrite Hout. cbn. rewrite insert_delete_eq. by apply insert_id. }
  rewrite Hback.
  destruct (restoreLastTrip_saved
              (set_currentUser (Some username) (set_localStorage (localStorage st) (handleLogout st)))
              st Hjson Hptr Hsaved Hmode)
    as (Hu' & Hrest); [by cbn; rewrite Hcu | done |].
  split; [by rewrite Hu'|]. exact Hrest.
Qed.

End LoginFacts.

(** ** What is rendered *)

Section RenderFacts.
Implicit Types (ps : list place) (st : state).

Lemma shown_S D p :
  (shown (S D) p ↔ shown D p ∨ pl_day p = Some D)
  ∧ (shown D p → pl_day p ≠ Some D).
Proof.
  unfold shown. destruct (pl_day p) as [d|]; cbn; [|naive_solver].
  rewrite !bool_decide_spec. split.
  - split; [intros ?|intros [?|[= ->]]]; [|lia..].
    destruct (decide (d = D)) as [->|]; [by right|left; lia].
  - intros ? [= ->]. lia.
Qed.

Lemma shown_step D ps :
  filter (λ p, shown (S D) p) ps
  ≡ₚ filter (λ p, shown D p) ps ++ bucket D ps.
Proof.
  unfold bucket. induction ps as [|p ps IH]; [done|].
  destruct (shown_S D p) as [HS Hex].
  destruct (decide (shown D p)) as [Hs|Hs]; destruct (decide (pl_day p = Some D)) as [Hd|Hd].
  - by destruct (Hex Hs).
  - rewrite (filter_cons_True (λ p, shown (S D) p)) by tauto.
    rewrite (filter_cons_True (λ p, shown D p)) by done.
    rewrite (filter_cons_False (λ p, pl_day p = Some D)) by done. cbn. by rewrite IH.
  - rewrite (filter_cons_True (λ p, shown (S D) p)) by tauto.
    rewrite (filter_cons_False (λ p, shown D p)) by done.
    rewrite (filter_cons_True (λ p, pl_day p = Some D)) by done.
    rewrite IH. apply Permutation_middle.
  - rewrite (filter_cons_False (λ p, shown (S D) p)) by tauto.
    rewrite (filter_cons_False (λ p, shown D p)) by done.
    by rewrite (filter_cons_False (λ p, pl_day p = Some D)) by done.
Qed.

Lemma buckets_shown D ps :
  concat ((λ d, bucket d ps) <$> seq 0 D) ≡ₚ filter (λ p, shown D p) ps.
Proof.
  induction D as [|D IH].
  - cbn. rewrite filter_none; [done|]. apply Forall_forall. intros p _.
    unfold shown. destruct (pl_day p); cbn; [intros ?%bool_decide_unpack; lia | intros []].
  - rewrite seq_S, fmap_app, concat_app. cbn. rewrite app_nil_r, IH. by rewrite shown_step.
Qed.

(** What [createItineraryUI] renders for [D] days: one container per day,
    in order, titled "Day 1" onwards; container [d] lists the places of day
    [d] in the order of [places]; and over all containers every place
    whose day is a number below [D] is listed exactly once, while a place
    with any other day is listed nowhere. *)
Theorem createItineraryUI_shows st D :
  currentDays st = Some D →
  let ui := itineraryContainer (createItineraryUI st) in
  dc_dayIndex <$> ui = seq 0 D
  ∧ (∀ d dc, ui !! d = Some dc →
       dc_title dc = "Day " +:+ pretty (d + 1)
       ∧ dc_items dc = mkItem <$> filter (λ p, pl_day p = Some d) (places st))
  ∧ concat (dc_items <$> ui) ≡ₚ mkItem <$> filter (λ p, shown D p) (places st).
Proof.
  intros HD ui.
  assert (ui = mkDayContainer (places st) <$> seq 0 D) as ->.
  { subst ui. unfold createItineraryUI. rewrite HD. by destruct D. }
  split_and!.
  - rewrite <- list_fmap_compose. apply list_fmap_id.
  - intros d dc Hdc. rewrite list_lookup_fmap in Hdc.
    destruct (seq 0 D !! d) as [d'|] eqn:Hd; [|done].
    apply lookup_seq in Hd as [-> _]. cbn in Hdc. by injection Hdc as <-.
  - rewrite <- buckets_shown, <- list_fmap_compose.
    generalize (seq 0 D). intros ds. induction ds as [|d ds IH]; [done|].
    cbn. by rewrite fmap_app, IH.
Qed.

(** ** Descriptions *)

(** The summary is the extract when the response is ok and has a non-empty
    one, and the empty string in every other case. *)
Lemma fetchWikipediaSummary_nonempty response :
  fetchWikipediaSummary response ≠ "" ↔
  ∃ r e, response = Some r ∧ res_ok r = true ∧ res_extract r = Some e ∧ e ≠ ""
         ∧ fetchWikipediaSummary response = e.
Proof.
  unfold fetchWikipediaSummary. split.
  - destruct response as [[ok [e|]]|]; cbn; try done; destruct ok; cbn; try done.
    case_bool_decide; [|done]. intros _. by exists (WikiResponse true (Some e)), e.
  - intros (r & e & -> & Hok & He & Hne & <-). rewrite Hok, He. cbn.
    by rewrite bool_decide_eq_true_2.
Qed.

(** When the fetch for the place at position [i] resolves, that place gets
    a non-empty description (the extract, or "No description available.")
    and is flagged as loaded, so its popup starts no further fetch; its
    other fields, the other places, the markers and the storage are
    unchanged: the description is not saved by this step. *)
Theorem summaryResolved_effect i response st p :
  places st !! i = Some p →
  let st' := summaryResolved i response st in
  places st' = <[i := summaryArrived (fetchWikipediaSummary response) p]> (places st)
  ∧ (∃ p', places st' !! i = Some p'
           ∧ pl_descriptionLoaded p' = true ∧ pl_description p' ≠ ""
           ∧ (fetchWikipediaSummary response = "" →
              pl_description p' = "No description available.")
           ∧ (fetchWikipediaSummary response ≠ "" →
              pl_description p' = fetchWikipediaSummary response)
           ∧ poi_core p' = poi_core p ∧ pl_day p' = pl_day p
           ∧ pl_visited p' = pl_visited p)
  ∧ (∀ j, j ≠ i → places st' !! j = places st !! j)
  ∧ popupFetches i st' = false
  ∧ markers st' = markers st
  ∧ localStorage st' = localStorage st.
Proof.
  intros Hp st'. subst st'. unfold summaryResolved. rewrite Hp. cbn.
  assert (i < length (places st)) as Hi by (by eapply lookup_lt_Some).
  split_and!; try done.
  - eexists. split; [by apply list_lookup_insert_eq|]. cbn.
    split_and!; try done.
    + case_bool_decide; done.
    + intros ->. done.
    + intros Hne. by rewrite bool_decide_eq_false_2.
  - intros j Hj. by apply list_lookup_insert_ne.
  - unfold popupFetches. cbn. rewrite list_lookup_insert_eq by done. cbn.
    by destruct (markers st !! pl_id p).
Qed.

End RenderFacts.

(** ** The visited toggle keeps the lists in sync *)

Section ToggleRender.
Implicit Types (ps : list place) (id : string).

Lemma unique_place ps i p q :
  NoDup (pl_id <$> ps) → ps !! i = Some p → q ∈ ps → pl_id q = pl_id p → q = p.
Proof.
  intros Hnd Hp [j Hq]%list_elem_of_lookup Hid.
  assert (j = i) as ->; [|congruence].
  eapply (NoDup_lookup (pl_id <$> ps)); [done|..].
  - by rewrite list_lookup_fmap, Hq.
  - rewrite list_lookup_fmap, Hp. cbn. congruence.
Qed.

Lemma bucket_insert_other ps i p p' d :
  ps !! i = Some p → pl_day p' = pl_day p → pl_day p ≠ Some d →
  bucket d (<[i := p']> ps) = bucket d ps.
Proof.
  intros Hp Hday Hd. unfold bucket.
  assert (i < length ps) as Hi by (by eapply lookup_lt_Some).
  rewrite insert_take_drop by done.
  rewrite <- (take_drop_middle ps i p Hp) at 3.
  rewrite !filter_app, !filter_cons_False; [done|done|congruence].
Qed.

Lemma bucket_insert_same ps i p p' d :
  NoDup (pl_id <$> ps) →
  ps !! i = Some p → pl_id p' = pl_id p → pl_day p' = Some d → pl_day p = Some d →
  ∃ j, list_find (λ it, item_id it = pl_id p) (mkItem <$> bucket d ps) = Some (j, mkItem p)
       ∧ mkItem <$> bucket d (<[i := p']> ps) = <[j := mkItem p']> (mkItem <$> bucket d ps).
Proof.
  intros Hnd Hp Hid Hd' Hd. unfold bucket.
  assert (i < length ps) as Hi by (by eapply lookup_lt_Some).
  rewrite insert_take_drop by done.
  pose proof (take_drop_middle ps i p Hp) as Hsplit.
  set (l1 := take i ps) in *. set (l2 := drop (S i) ps) in *.
  rewrite <- Hsplit. rewrite <- Hsplit in Hnd.
  rewrite fmap_app, fmap_cons in Hnd.
  apply NoDup_app in Hnd as (_ & Hfresh & _).
  rewrite !filter_app, (filter_cons_True _ p), (filter_cons_True _ p') by done.
  rewrite !fmap_app, !fmap_cons.
  exists (length (mkItem <$> filter (λ q, pl_day q = Some d) l1)). split.
  - rewrite list_find_app_r.
    + cbn. by rewrite decide_True by done.
    + apply list_find_None, Forall_forall. intros it (q & -> & Hq)%list_elem_of_fmap Heq.
      apply list_elem_of_filter in Hq as [_ Hq]. cbn in Heq.
      apply (Hfresh (pl_id q)); [by apply list_elem_of_fmap_2|].
      rewrite Heq. apply list_elem_of_here.
  - rewrite <- (Nat.add_0_r (length _)) at 1. by rewrite insert_app_r.
Qed.

Lemma mark_item_rerender ps i p v (ds : list nat) :
  NoDup (pl_id <$> ps) → ps !! i = Some p → NoDup ds →
  mark_item (pl_id p) v (mkDayContainer ps <$> ds)
  = mkDayContainer (<[i := set_visited v p]> ps) <$> ds.
Proof.
  intros Hnd Hp. induction 1 as [|d ds Hd _ IH]; [done|].
  assert (∀ d', pl_day p ≠ Some d' →
            mkDayContainer (<[i := set_visited v p]> ps) d' = mkDayContainer ps d') as Hother.
  { intros d' Hd'. unfold mkDayContainer. by rewrite (bucket_insert_other ps i p). }
  rewrite !fmap_cons. cbn [mark_item].
  destruct (decide (pl_day p = Some d)) as [Hday|Hday].
  - destruct (bucket_insert_same ps i p (set_visited v p) d Hnd Hp eq_refl Hday Hday)
      as (j & Hfind & Hins).
    change (dc_items (mkDayContainer ps d)) with (mkItem <$> bucket d ps).
    rewrite Hfind. f_equal.
    + unfold mkDayContainer at 3. rewrite Hins. done.
    + apply list_fmap_ext. intros _ d' Hd'%list_elem_of_lookup_2.
      symmetry. apply Hother. rewrite Hday. intros [= <-]. done.
  - change (dc_items (mkDayContainer ps d)) with (mkItem <$> bucket d ps).
    rewrite (proj2 (list_find_None _ _)).
    + by rewrite IH, Hother.
    + apply Forall_forall. intros it (q & -> & Hq)%list_elem_of_fmap Heq.
      apply list_elem_of_filter in Hq as [Hqd Hq]. cbn in Heq.
      rewrite (unique_place ps i p q Hnd Hp Hq Heq) in Hqd. done.
Qed.

End ToggleRender.

Section ToggleRenderState.
Context `{Platform}.

(** toggleVisited updates the one item in place instead of rendering
    again, and with pairwise distinct ids that gives the same lists: if
    they were what [createItineraryUI] would build, they still are. *)
Theorem toggleVisited_keeps_lists st id :
  lists_in_sync st → NoDup (pl_id <$> places st) →
  lists_in_sync (toggleVisited id st).
Proof.
  intros Hsync Hnd. unfold toggleVisited.
  destruct (list_find _ _) as [[i p]|] eqn:Hf; [|done].
  apply list_find_Some in Hf as (Hp & <- & _).
  unfold lists_in_sync in *. rewrite saveTrip_itineraryContainer.
  cbn [updateMarkerColors itineraryContainer set_markers set_itineraryContainer set_places].
  rewrite Hsync. unfold createItineraryUI.
  rewrite saveTrip_currentDays, saveTrip_places.
  cbn [updateMarkerColors currentDays places set_markers set_itineraryContainer set_places].
  destruct (currentDays st) as [[|D]|]; [done| |done].
  cbn [itineraryContainer set_itineraryContainer].
  apply mark_item_rerender; [done..|apply NoDup_seq].
Qed.

End ToggleRenderState.

(** ** What the edits never touch *)

Section EditInvariants.
Context `{Platform}.
Implicit Types (st : state) (id : string).

Lemma insert_same_core (ps : list place) i p p' :
  ps !! i = Some p → poi_core p' = poi_core p →
  poi_core <$> <[i := p']> ps = poi_core <$> ps.
Proof.
  intros Hp Hcore. rewrite list_fmap_insert, Hcore.
  apply list_insert_id. by rewrite list_lookup_fmap, Hp.
Qed.

(** The edits (toggle, move, day reorder, a description arriving) never
    add, drop, reorder or rename a POI: ids, names, positions and tags of
    the places stay as they are. *)
Theorem edits_keep_pois st id newDayIndex i response :
  poi_core <$> places (toggleVisited id st) = poi_core <$> places st
  ∧ poi_core <$> places (onEnd_poi id newDayIndex st) = poi_core <$> places st
  ∧ poi_core <$> places (onEnd_days st) = poi_core <$> places st
  ∧ poi_core <$> places (summaryResolved i response st) = poi_core <$> places st.
Proof.
  split_and!.
  - unfold toggleVisited. destruct (list_find _ _) as [[j p]|] eqn:Hf; [|done].
    apply list_find_Some in Hf as (Hp & _). rewrite saveTrip_places. cbn.
    by apply (insert_same_core _ _ p).
  - unfold onEnd_poi. destruct (list_find _ _) as [[j p]|] eqn:Hf; [|done].
    apply list_find_Some in Hf as (Hp & _). rewrite saveTrip_places. cbn.
    by apply (insert_same_core _ _ p).
  - rewrite onEnd_days_places, <- list_fmap_compose. by apply list_fmap_ext.
  - unfold summaryResolved. destruct (places st !! i) as [p|] eqn:Hp; [|done]. cbn.
    by apply (insert_same_core _ _ p).
Qed.

(** Toggling, and moving a POI to a day below the day count, keep every
    day in range; all places are then rendered. *)
Theorem edits_keep_days_in_range st D id newDayIndex :
  Forall (λ p, shown D p) (places st) → newDayIndex < D →
  Forall (λ p, shown D p) (places (toggleVisited id st))
  ∧ Forall (λ p, shown D p) (places (onEnd_poi id newDayIndex st)).
Proof.
  intros Hdays Hlt. split.
  - unfold toggleVisited. destruct (list_find _ _) as [[j p]|] eqn:Hf; [|done].
    apply list_find_Some in Hf as (Hp & _). rewrite saveTrip_places. cbn.
    apply Forall_insert; [done|]. rewrite Forall_lookup in Hdays. by apply (Hdays j p).
  - unfold onEnd_poi. destruct (list_find _ _) as [[j p]|] eqn:Hf; [|done].
    rewrite saveTrip_places. cbn. apply Forall_insert; [done|].
    unfold shown. cbn. by apply bool_decide_pack.
Qed.

(** Start-up without a remembered user, without a last-trip pointer, or
    with a pointer on which [JSON.parse] throws, shows no trip: the state
    is the initial one. *)
Theorem startup_without_pointer storage :
  truthy (storage !! "currentUser") = false
  ∨ truthy (storage !! lastTripKey (storage !! "currentUser")) = false
  ∨ (∃ s, storage !! lastTripKey (storage !! "currentUser") = Some s ∧ JSON_parse s = None) →
  startup storage = initialState storage.
Proof.
  unfold startup, restoreLastTrip. cbn [initialState currentUser localStorage].
  intros [->|[Hp|(s & Hs & Hparse)]]; [done|..].
  - rewrite Hp. by case_match.
  - rewrite Hs. cbn. rewrite Hparse. by repeat case_match.
Qed.

End EditInvariants.

(** ** One user's trips keep apart *)

Lemma pretty_N_go_underscore x : ∀ s, has_char "_" (pretty_N_go x s) = has_char "_" s.
Proof.
  induction (N.lt_wf_0 x) as [x _ IH]; intros s.
  assert (x = 0 ∨ 0 < x)%N as [->|Hx] by lia; [done|].
  rewrite pretty_N_go_step by done. rewrite IH by (by apply N.div_lt).
  cbn. unfold pretty_N_char. by repeat case_match.
Qed.

Lemma pretty_nat_underscore (n : nat) : has_char "_" (pretty n) = false.
Proof.
  unfold pretty, pretty_nat, pretty, pretty_N. case_decide; [done|].
  by rewrite pretty_N_go_underscore.
Qed.

(** A string is cut in one way only at its last underscore. *)
Lemma split_last_underscore s1 : ∀ s2 t1 t2,
  has_char "_" t1 = false → has_char "_" t2 = false →
  s1 +:+ String "_" t1 = s2 +:+ String "_" t2 → s1 = s2 ∧ t1 = t2.
Proof.
  induction s1 as [|a s1 IH]; intros [|b s2] t1 t2 H1 H2 Heq.
  - change (String "_" t1 = String "_" t2) in Heq. by injection Heq as ->.
  - change (String "_" t1 = String b (s2 +:+ String "_" t2)) in Heq.
    injection Heq as _ ->. rewrite has_char_app in H1. cbn in H1.
    by rewrite orb_true_r in H1.
  - change (String a (s1 +:+ String "_" t1) = String "_" t2) in Heq.
    injection Heq as _ <-. rewrite has_char_app in H2. cbn in H2.
    by rewrite orb_true_r in H2.
  - change (String a (s1 +:+ String "_" t1) = String b (s2 +:+ String "_" t2)) in Heq.
    injection Heq as -> Heq. by destruct (IH s2 t1 t2 H1 H2 Heq) as [-> ->].
Qed.

(** For one user, different destinations or day counts have different
    keys. *)
Theorem tripKey_inj user dest days dest' days' :
  tripKey user dest days = tripKey user dest' days' → dest = dest' ∧ days = days'.
Proof.
  unfold tripKey. intros Heq.
  apply (String.app_inj (template_user user)) in Heq.
  apply (String.app_inj "_trip_") in Heq.
  apply (split_last_underscore dest dest' (pretty days) (pretty days')) in Heq as [-> Hd];
    [|apply pretty_nat_underscore..].
  split; [done|]. by apply (inj pretty).
Qed.

Section OtherTrips.
Context `{Platform}.

(** A plan writes the user's pointer and the key of the planned trip, and
    nothing else: whatever the same user saved for another destination or
    day count stays in storage, and so does every entry that is not a
    trip or pointer key of this user. *)
Theorem handlePlan_keeps_other_entries st dest days mode geoData overData key :
  key ≠ lastTripKey (currentUser st) →
  key ≠ tripKey (currentUser st) dest (Z.to_nat days) →
  localStorage (handlePlan dest days mode geoData overData st) !! key
  = localStorage st !! key.
Proof.
  intros Hk1 Hk2. unfold handlePlan. repeat case_match; try done.
  rewrite createItineraryUI_frame. cbn. unfold saveTrip. cbn.
  rewrite bool_decide_eq_true_2 by apply tripKey_nonempty. cbn.
  by rewrite !lookup_insert_ne.
Qed.

End OtherTrips.

(** ** The further properties at sample inputs *)

Lemma sample_users_faithful : @users_law sample_auth.
Proof.
  intros m. split; [done|]. cbn. unfold bits_users_parse, bits_users_stringify.
  rewrite decide_True by done. rewrite pos_of_bits_of_pos. cbn. apply decode_encode.
Qed.

Lemma sample_btoa_faithful : @btoa_law sample_auth.
Proof.
  split; cbn; unfold prefix_btoa.
  - intros p1 p2 c [= <-] [= Heq]. symmetry. exact Heq.
  - intros p c [= <-] _. done.
Qed.

Lemma rome_ids_distinct : NoDup (pl_id <$> places rome_state).
Proof. apply (bool_decide_unpack _). vm_compute. exact I. Qed.

Lemma rome_markers_in_sync : markers_in_sync rome_state.
Proof. unfold markers_in_sync. vm_compute. reflexivity. Qed.

Lemma rome_first_place : places rome_state !! 0 = Some pantheon.
Proof. vm_compute. reflexivity. Qed.

Lemma ann_is_logged_in :
  currentUser ann_logged_in = Some "ann"
  ∧ localStorage ann_logged_in !! "currentUser" = Some "ann".
Proof. split; vm_compute; reflexivity. Qed.

Lemma ann_saved :
  @trip_saved sample_platform ann_session ∧ @pointer_saved sample_platform ann_session.
Proof.
  apply (@plan_is_saved sample_platform ann_logged_in "ann" "Rome" 2 "walking" 0 0 []
           (Overpass (Some sample_elements))); [discriminate | lia | discriminate |..];
    apply ann_is_logged_in.
Qed.

Lemma move_reorder_keep_markers_witness :
  markers_in_sync rome_state ∧ NoDup (pl_id <$> places rome_state)
  ∧ markers_in_sync (@onEnd_poi sample_platform "103" 1 rome_state)
  ∧ markers_in_sync (@onEnd_days sample_platform rome_state).
Proof.
  split; [exact rome_markers_in_sync|]. split; [exact rome_ids_distinct|].
  destruct (@move_reorder_keep_markers sample_platform rome_state "103" 1
              rome_markers_in_sync rome_ids_distinct) as [[Hmove _] [Hdays _]].
  split; [exact Hmove | exact Hdays].
Defined.

Lemma toggleVisited_sync_witness :
  places rome_state !! 0 = Some pantheon ∧ pl_id pantheon = "101"
  ∧ pl_visited pantheon = false
  ∧ markers_in_sync (@toggleVisited sample_platform "101" rome_state).
Proof.
  split; [exact rome_first_place|]. split; [reflexivity|]. split; [reflexivity|].
  exact (proj1 (@toggleVisited_sync sample_platform rome_state "101" 0 pantheon
                  rome_markers_in_sync rome_ids_distinct rome_first_place eq_refl) eq_refl).
Defined.

Lemma buildPlaces_nearest_witness :
  @ranked sample_platform 0 0 sample_elements !! 5
  = Some (Element 106 (Q2Qc 6) 0 (sample_tags "Vatican"), Q2Qc 36)
  ∧ length (filter named sample_elements) `min` (1 * 5) ≤ 5
  ∧ pantheon ∈ @buildPlaces sample_platform 0 0 1 sample_elements
  ∧ (planar_distance 0 0 (pl_lat pantheon) (pl_lon pantheon) ≤ Q2Qc 36)%Qc.
Proof.
  assert (@ranked sample_platform 0 0 sample_elements !! 5
          = Some (Element 106 (Q2Qc 6) 0 (sample_tags "Vatican"), Q2Qc 36)) as Hc
    by (vm_compute; reflexivity).
  assert (length (filter named sample_elements) `min` (1 * 5) ≤ 5) as Hi
    by (vm_compute; lia).
  assert (pantheon ∈ @buildPlaces sample_platform 0 0 1 sample_elements) as Hp.
  { apply (bool_decide_unpack _). vm_compute. exact I. }
  split; [exact Hc|]. split; [exact Hi|]. split; [exact Hp|].
  exact (@buildPlaces_nearest sample_platform 0 0 1 sample_elements 5 _ pantheon Hc Hi Hp).
Defined.

Lemma handlePlan_rejects_witness :
  @handlePlan sample_platform "Rome" 0 "walking" (Some [(0%Qc, 0%Qc)])
    (Some (Overpass (Some sample_elements))) rome_state = rome_state.
Proof.
  apply (@handlePlan_rejects sample_platform). right. left. lia.
Defined.

Lemma handlePlan_markers_witness :
  NoDup (el_id <$> sample_elements)
  ∧ NoDup (pl_id <$> places rome_state) ∧ markers_in_sync rome_state.
Proof.
  assert (NoDup (el_id <$> sample_elements)) as Hnd.
  { apply (bool_decide_unpack _). vm_compute. exact I. }
  split; [exact Hnd|].
  destruct (@handlePlan_markers sample_platform empty_state "Rome" 2 "walking" 0 0 []
              (Overpass (Some sample_elements)) ltac:(discriminate) ltac:(lia) Hnd)
    as (Hids & Hsync & _).
  split; [exact Hids | exact Hsync].
Defined.

Lemma edits_are_saved_witness :
  truthy (currentTripKey rome_state) = true
  ∧ @trip_saved sample_platform (@onEnd_days sample_platform rome_state).
Proof.
  assert (truthy (currentTripKey rome_state) = true) as Hkey by (vm_compute; reflexivity).
  split; [exact Hkey|].
  exact (proj1 (proj1 (@edits_are_saved sample_platform rome_state "101" 1 Hkey))).
Defined.


Lemma ann_mode : currentMode ann_session ≠ "".
Proof. vm_compute. discriminate. Qed.

Lemma reload_restores_witness :
  places (@startup sample_platform (localStorage ann_session)) = places ann_session
  ∧ currentMode (@startup sample_platform (localStorage ann_session)) = "walking".
Proof.
  destruct (@reload_restores sample_platform ann_session sample_codec_faithful
              (proj2 ann_saved) (proj1 ann_saved) ann_mode) as (_ & Hps & _ & _ & Hmode & _).
  split; [exact Hps|]. rewrite Hmode. vm_compute. reflexivity.
Defined.


Lemma handleLogin_sound_witness :
  @handleLogin sample_platform sample_auth "ann" "secret" (initialState ∅)
  = LoggedIn ann_logged_in
  ∧ currentUser ann_logged_in = Some "ann".
Proof.
  assert (@handleLogin sample_platform sample_auth "ann" "secret" (initialState ∅)
          = LoggedIn ann_logged_in) as Hlogin by (vm_compute; reflexivity).
  split; [exact Hlogin|].
  destruct (@handleLogin_sound sample_platform sample_auth "ann" "secret" _ _
              sample_users_faithful Hlogin) as (_ & _ & Hcu & _).
  exact Hcu.
Defined.

Lemma register_then_login_witness :
  ∃ st1, @handleLogin sample_platform sample_auth "ann" "secret" (initialState ∅) = LoggedIn st1
    ∧ (@handleLogin sample_platform sample_auth "ann" "guess" st1
       = LoginError "Incorrect password."
       ∨ @handleLogin sample_platform sample_auth "ann" "guess" st1 = LoginThrows).
Proof.
  destruct (@register_then_login sample_platform sample_auth "ann" "secret" (initialState ∅)
              ∅ "b64:secret" sample_users_faithful sample_btoa_faithful
              ltac:(discriminate) ltac:(discriminate) eq_refl eq_refl eq_refl)
    as (st1 & Hlogin & Hlater).
  exists st1. split; [exact Hlogin|].
  exact (proj2 (Hlater st1 eq_refl) "guess" ltac:(discriminate) ltac:(discriminate)).
Defined.

Lemma inherited_name_locked_out_witness :
  @handleLogin sample_platform sample_auth "constructor" "secret" (initialState ∅)
  = LoginError "Incorrect password.".
Proof.
  exact (@inherited_name_locked_out sample_platform sample_auth "constructor" "secret"
           (initialState ∅) ∅ ltac:(discriminate) ltac:(discriminate) eq_refl eq_refl eq_refl).
Defined.

Lemma logout_login_restores_witness :
  ∃ st', @handleLogin sample_platform sample_auth "ann" "secret"
           (@handleLogout sample_platform ann_session) = LoggedIn st'
    ∧ places st' = places ann_session.
Proof.
  assert (@stored_users sample_auth ann_session = Some {[ "ann" := "b64:secret" ]}) as Hus
    by (vm_compute; reflexivity).
  destruct (@logout_login_restores sample_platform sample_auth "ann" "secret" ann_session
              {[ "ann" := "b64:secret" ]} "b64:secret" sample_codec_faithful
              (proj2 ann_saved) (proj1 ann_saved) ann_mode
              ltac:(vm_compute; reflexivity) ltac:(discriminate) Hus
              ltac:(vm_compute; reflexivity) ltac:(discriminate) eq_refl)
    as (st' & Hlogin & _ & Hps & _).
  exists st'. split; [exact Hlogin | exact Hps].
Defined.

Lemma createItineraryUI_shows_witness :
  currentDays rome_state = Some 2
  ∧ dc_dayIndex <$> itineraryContainer (createItineraryUI rome_state) = seq 0 2.
Proof.
  assert (currentDays rome_state = Some 2) as HD by (vm_compute; reflexivity).
  split; [exact HD|].
  exact (proj1 (createItineraryUI_shows rome_state 2 HD)).
Defined.

Lemma summaryResolved_effect_witness :
  places rome_state !! 0 = Some pantheon
  ∧ popupFetches 0 (summaryResolved 0 None rome_state) = false
  ∧ localStorage (summaryResolved 0 None rome_state) = localStorage rome_state.
Proof.
  split; [exact rome_first_place|].
  destruct (summaryResolved_effect 0 None rome_state pantheon rome_first_place)
    as (_ & _ & _ & Hpop & _ & Hls).
  split; [exact Hpop | exact Hls].
Defined.

Lemma toggleVisited_keeps_lists_witness :
  lists_in_sync rome_state ∧ NoDup (pl_id <$> places rome_state)
  ∧ lists_in_sync (@toggleVisited sample_platform "101" rome_state).
Proof.
  assert (lists_in_sync rome_state) as Hsync.
  { unfold lists_in_sync. vm_compute. reflexivity. }
  split; [exact Hsync|]. split; [exact rome_ids_distinct|].
  exact (@toggleVisited_keeps_lists sample_platform rome_state "101" Hsync rome_ids_distinct).
Defined.

Lemma edits_keep_days_in_range_witness :
  Forall (λ p, shown 2 p) (places rome_state) ∧ 1 < 2
  ∧ Forall (λ p, shown 2 p) (places (@onEnd_poi sample_platform "103" 1 rome_state)).
Proof.
  assert (Forall (λ p, shown 2 p) (places rome_state)) as Hdays.
  { apply (bool_decide_unpack _). vm_compute. exact I. }
  split; [exact Hdays|]. split; [lia|].
  exact (proj2 (@edits_keep_days_in_range sample_platform rome_state 2 "103" 1 Hdays
                  ltac:(lia))).
Defined.

Lemma startup_without_pointer_witness :
  truthy ((∅ : gmap string string) !! "currentUser") = false
  ∧ @startup sample_platform ∅ = initialState ∅.
Proof.
  split; [reflexivity|].
  apply (@startup_without_pointer sample_platform). left. reflexivity.
Defined.

Lemma tripKey_inj_witness :
  tripKey (Some "ann") "Rome" 2 = tripKey (Some "ann") "Rome" 2
  ∧ "Rome" = "Rome" ∧ 2 = 2.
Proof.
  split; [reflexivity|].
  exact (tripKey_inj (Some "ann") "Rome" 2 "Rome" 2 eq_refl).
Defined.

Lemma handlePlan_keeps_other_entries_witness :
  "ann_trip_Rome_2" ≠ lastTripKey (currentUser ann_session)
  ∧ "ann_trip_Rome_2" ≠ tripKey (currentUser ann_session) "Paris" (Z.to_nat 3)
  ∧ localStorage (@handlePlan sample_platform "Paris" 3 "walking" (Some [(0%Qc, 0%Qc)])
                    (Some (Overpass (Some sample_elements))) ann_session) !! "ann_trip_Rome_2"
    = localStorage ann_session !! "ann_trip_Rome_2".
Proof.
  assert ("ann_trip_Rome_2" ≠ lastTripKey (currentUser ann_session)) as H1.
  { apply (bool_decide_unpack _). vm_compute. exact I. }
  assert ("ann_trip_Rome_2" ≠ tripKey (currentUser ann_session) "Paris" (Z.to_nat 3)) as H2.
  { apply (bool_decide_unpack _). vm_compute. exact I. }
  split; [exact H1|]. split; [exact H2|].
  exact (@handlePlan_keeps_other_entries sample_platform ann_session "Paris" 3 "walking"
           (Some [(0%Qc, 0%Qc)]) (Some (Overpass (Some sample_elements))) "ann_trip_Rome_2"
           H1 H2).
Defined.
